(** * ArcaneDB: the write-ahead log segment, the OCC transaction context
      and the versioned page, as a shallow embedding.

    Sources embedded here:
    - [src/log_store/posix_log_store/log_segment.h]  (module [LogSegment])
    - [src/log_store/posix_log_store/posix_log_store.cpp] (module [PosixLogStore])
    - [src/txn/txn_context_occ.cpp] (module [TxnContextOCC])
    - [test/btree/versioned_bwtree_page_test.cpp] together with the
      specification text of the versioned page (module [VersionedPage]).

    Unsigned 64-bit values ([uint64_t], [size_t]) are integers of [Z] in
    [0, 2^64); every addition and subtraction of the source is followed by
    an explicit reduction modulo [2^64]. *)

From Stdlib Require Import ZArith List Bool Lia String Ascii.
Import ListNotations.

Local Open Scope Z_scope.

(** ** 64-bit unsigned arithmetic *)

Definition two64 : Z := 18446744073709551616.

Definition wrap64 (x : Z) : Z := x mod two64.

Definition is_u64 (x : Z) : Prop := 0 <= x < two64.

(** ** Outcomes and status codes *)

(** Outcome of a method: [Done r] when it returns [r]; [Fatal] when a
    [CHECK] fails and the process is terminated; [OutOfFuel] when the
    iteration bound given to a loop was too small to reach its exit. *)
Inductive outcome (A : Type) : Type :=
| OutOfFuel : outcome A
| Fatal : outcome A
| Done : A -> outcome A.
Arguments OutOfFuel {A}.
Arguments Fatal {A}.
Arguments Done {A} _.

(** Modelled from the spec: [common/status.h] is not among the sources.
    The constructors are the status kinds that the sources build or test
    ([Status::Ok()], [NotFound()], [Err()], [Abort()], [Commit()]) and the
    kind [Conflict] of the specification ("intent-locked by another
    uncommitted transaction").  [ok()] holds of [Ok] alone,
    [IsNotFound()] of [NotFound] alone. *)
Inductive Status : Type :=
| Ok | NotFound | Err | Conflict | Abort | Commit.

Definition ok (s : Status) : bool :=
  match s with Ok => true | _ => false end.

Definition IsNotFound (s : Status) : bool :=
  match s with NotFound => true | _ => false end.

(** ** The log segment ([log_segment.h]) *)

Module LogSegment.

(** *** Constants of the packed control word *)

Definition kIsSealedOffset : Z := 63.
Definition kIsSealedMaskbit : Z := 1.
Definition kWriterNumOffset : Z := 48.
Definition kWriterNumMaskbit : Z := 0x7FFF.
Definition kLsnOffset : Z := 0.
Definition kLsnMaskbit : Z := wrap64 (wrap64 (Z.shiftl 1 48) - 1).
Definition kMaximumWriterNum : Z := kWriterNumMaskbit.

(** *** Bit accessors (static member functions) *)

(** [(control_bits >> kIsSealedOffset) & kIsSealedMaskbit], converted to
    [bool] (non-zero is [true]). *)
Definition IsSealed_ (control_bits : Z) : bool :=
  negb (Z.land (Z.shiftr control_bits kIsSealedOffset) kIsSealedMaskbit =? 0).

Definition MarkSealed_ (control_bits : Z) : Z :=
  Z.lor control_bits (wrap64 (Z.shiftl 1 kIsSealedOffset)).

Definition GetWriterNum_ (control_bits : Z) : Z :=
  Z.land (Z.shiftr control_bits kWriterNumOffset) kWriterNumMaskbit.

Definition IncrWriterNum_ (control_bits : Z) : Z :=
  wrap64 (control_bits + wrap64 (Z.shiftl 1 kWriterNumOffset)).

Definition DecrWriterNum_ (control_bits : Z) : Z :=
  wrap64 (control_bits - wrap64 (Z.shiftl 1 kWriterNumOffset)).

Definition GetLsn_ (control_bits : Z) : Z :=
  Z.land control_bits kLsnMaskbit.

Definition BumpLsn_ (control_bits length : Z) : Z :=
  wrap64 (control_bits + length).

(** *** The segment object *)

Inductive LogSegmentState : Type := kFree | kOpen | kIo.

Definition LogSegmentState_eqb (a b : LogSegmentState) : bool :=
  match a, b with
  | kFree, kFree | kOpen, kOpen | kIo, kIo => true
  | _, _ => false
  end.

(** The fields of [class LogSegment] that its control methods read or
    write.  The byte buffer [writer_] is touched by none of them. *)
Record t : Type := mk {
  state_ : LogSegmentState;
  size_ : Z;
  start_lsn_ : Z;
  control_bits_ : Z
}.

(** [LogSegment(size_t size)]: the default member initialisers give
    [kFree], start LSN 0 and an all-zero control word. *)
Definition make (size : Z) : t :=
  {| state_ := kFree; size_ := size; start_lsn_ := 0; control_bits_ := 0 |}.

Definition set_control_bits (seg : t) (cb : Z) : t :=
  {| state_ := state_ seg; size_ := size_ seg;
     start_lsn_ := start_lsn_ seg; control_bits_ := cb |}.

Definition set_state (seg : t) (s : LogSegmentState) : t :=
  {| state_ := s; size_ := size_ seg;
     start_lsn_ := start_lsn_ seg; control_bits_ := control_bits_ seg |}.

(** [std::atomic<uint64_t>::compare_exchange_weak(expected, desired)] as
    executed by one thread with no interference and no spurious failure:
    on success the cell takes [desired] and [expected] is left alone, on
    failure [expected] is overwritten with the cell's value.  The result
    is [(succeeded, cell', expected')]. *)
Definition compare_exchange (cell expected desired : Z) : bool * Z * Z :=
  if cell =? expected then (true, desired, expected)
  else (false, cell, cell).

(** The scoped guard handed to a writer; its destructor is the explicit
    operation [OnWriterExit] below. *)
Inductive ControlGuard : Type := MkControlGuard.

(** The [do { ... } while (compare_exchange_weak(...))] loop of
    [AcquireControlGuard].  The loop repeats while the exchange returns
    [true]; [fuel] bounds the number of iterations.  The result is the
    returned pair and the control word.  The warning logged when
    [length > size_] changes nothing and is left out. *)
Fixpoint AcquireControlGuard_loop (fuel : nat) (size length : Z)
         (cell current_control_bits : Z)
  : outcome (option ControlGuard * bool * Z) :=
  match fuel with
  | O => OutOfFuel
  | S fuel' =>
      let current_lsn := GetLsn_ current_control_bits in
      if wrap64 (current_lsn + length) >? size then
        Done (None, true, cell)
      else
        let current_writers := GetWriterNum_ current_control_bits in
        if wrap64 (current_writers + 1) >? kMaximumWriterNum then
          Done (None, false, cell)
        else
          let new_control_bits := IncrWriterNum_ current_control_bits in
          let new_control_bits := BumpLsn_ new_control_bits length in
          match compare_exchange cell current_control_bits new_control_bits with
          | (true, cell', current') =>
              AcquireControlGuard_loop fuel' size length cell' current'
          | (false, cell', _) =>
              Done (Some MkControlGuard, false, cell')
          end
  end.

(** [AcquireControlGuard(length)]: the pair of the source and the segment
    after the call. *)
Definition AcquireControlGuard (fuel : nat) (seg : t) (length : Z)
  : outcome (option ControlGuard * bool * t) :=
  let current_control_bits := control_bits_ seg in
  match AcquireControlGuard_loop fuel (size_ seg) length
          (control_bits_ seg) current_control_bits with
  | Done (g, must_seal, cell') => Done (g, must_seal, set_control_bits seg cell')
  | Fatal => Fatal
  | OutOfFuel => OutOfFuel
  end.

(** The loop of [OnWriterExit]; the result is the flag
    [should_schedule_io_task] and the control word. *)
Fixpoint OnWriterExit_loop (fuel : nat) (should_schedule_io_task : bool)
         (cell current_control_bits : Z) : outcome (bool * Z) :=
  match fuel with
  | O => OutOfFuel
  | S fuel' =>
      let is_sealed := IsSealed_ current_control_bits in
      let new_control_bits := DecrWriterNum_ current_control_bits in
      (* [bool is_last_writer = GetWriterNum_(new_control_bits);] :
         a [size_t] converted to [bool] is [true] when it is not zero. *)
      let is_last_writer := negb (GetWriterNum_ new_control_bits =? 0) in
      let should_schedule_io_task :=
        if is_last_writer && is_sealed then true
        else should_schedule_io_task in
      match compare_exchange cell current_control_bits new_control_bits with
      | (true, cell', current') =>
          OnWriterExit_loop fuel' should_schedule_io_task cell' current'
      | (false, cell', _) => Done (should_schedule_io_task, cell')
      end
  end.

Definition OnWriterExit (fuel : nat) (seg : t) : outcome t :=
  match OnWriterExit_loop fuel false (control_bits_ seg) (control_bits_ seg) with
  | Done (should_schedule_io_task, cell') =>
      let seg' := set_control_bits seg cell' in
      Done (if should_schedule_io_task then set_state seg' kIo else seg')
  | Fatal => Fatal
  | OutOfFuel => OutOfFuel
  end.

(** [OpenLogSegmentAndSetLsn(start_lsn)]. *)
Definition OpenLogSegmentAndSetLsn (seg : t) (start_lsn : Z) : outcome t :=
  if LogSegmentState_eqb (state_ seg) kFree then
    Done {| state_ := kOpen; size_ := size_ seg;
            start_lsn_ := start_lsn; control_bits_ := control_bits_ seg |}
  else Fatal.

(** The loop of [TrySealLogSegment]; the result is the returned
    [std::optional<LsnType>] and the control word. *)
Fixpoint TrySealLogSegment_loop (fuel : nat) (cell current_control_bits : Z)
  : outcome (option Z * Z) :=
  match fuel with
  | O => OutOfFuel
  | S fuel' =>
      if IsSealed_ current_control_bits then Done (None, cell)
      else
        let new_control_bits := MarkSealed_ current_control_bits in
        let new_lsn := GetLsn_ new_control_bits in
        match compare_exchange cell current_control_bits new_control_bits with
        | (true, cell', current') =>
            TrySealLogSegment_loop fuel' cell' current'
        | (false, cell', _) => Done (Some new_lsn, cell')
        end
  end.

Definition TrySealLogSegment (fuel : nat) (seg : t) : outcome (option Z * t) :=
  if LogSegmentState_eqb (state_ seg) kOpen then
    match TrySealLogSegment_loop fuel (control_bits_ seg) (control_bits_ seg) with
    | Done (r, cell') => Done (r, set_control_bits seg cell')
    | Fatal => Fatal
    | OutOfFuel => OutOfFuel
    end
  else Fatal.

(** *** Sequences of operations on one segment *)

Inductive Op : Type :=
| OpOpen (start_lsn : Z)
| OpAcquire (length : Z)
| OpWriterExit
| OpTrySeal.

Definition step (fuel : nat) (seg : t) (op : Op) : outcome t :=
  match op with
  | OpOpen start_lsn => OpenLogSegmentAndSetLsn seg start_lsn
  | OpAcquire length =>
      match AcquireControlGuard fuel seg length with
      | Done (_, _, seg') => Done seg'
      | Fatal => Fatal
      | OutOfFuel => OutOfFuel
      end
  | OpWriterExit => OnWriterExit fuel seg
  | OpTrySeal =>
      match TrySealLogSegment fuel seg with
      | Done (_, seg') => Done seg'
      | Fatal => Fatal
      | OutOfFuel => OutOfFuel
      end
  end.

Fixpoint run (fuel : nat) (seg : t) (ops : list Op) : outcome t :=
  match ops with
  | [] => Done seg
  | op :: rest =>
      match step fuel seg op with
      | Done seg' => run fuel seg' rest
      | Fatal => Fatal
      | OutOfFuel => OutOfFuel
      end
  end.

End LogSegment.

(** ** The log store ([posix_log_store.cpp]) *)

Module PosixLogStore.

Record LsnRange : Type := mkLsnRange {
  start_lsn : Z;
  end_lsn : Z
}.

(** The members of [PosixLogStore] used by [SealAndOpen]: the ring of
    segments and the index of the segment currently open for writers. *)
Record t : Type := mk {
  segment_num_ : nat;
  segments_ : list LogSegment.t;
  current_log_segment_ : nat
}.

Fixpoint set_nth {A : Type} (n : nat) (x : A) (l : list A) : list A :=
  match l, n with
  | [], _ => []
  | _ :: tl, O => x :: tl
  | hd :: tl, S n' => hd :: set_nth n' x tl
  end.

Definition set_segment (store : t) (i : nat) (seg : LogSegment.t) : t :=
  {| segment_num_ := segment_num_ store;
     segments_ := set_nth i seg (segments_ store);
     current_log_segment_ := current_log_segment_ store |}.

(** [AppendLogRecord(log_records, result)]: the body of the source is the
    single statement [return Status::Ok();], so [result] is handed back as
    it was received. *)
Definition AppendLogRecord (store : t) (log_records : list string)
           (result : list LsnRange) : Status * list LsnRange :=
  (Ok, result).

(** Modelled from the spec: [OpenNewLogSegment_] is declared in
    [posix_log_store.h], which is not among the sources.  The specification
    says that sealing is followed by opening "the next segment with
    [start_lsn = previous_sealed_end]" in a ring "traversed circularly":
    the segment after the current one is opened with the given LSN by
    [LogSegment::OpenLogSegmentAndSetLsn] and becomes the current one. *)
Definition OpenNewLogSegment_ (store : t) (start_lsn : Z) : outcome t :=
  let next := ((current_log_segment_ store + 1) mod segment_num_ store)%nat in
  match nth_error (segments_ store) next with
  | None => Fatal
  | Some seg =>
      match LogSegment.OpenLogSegmentAndSetLsn seg start_lsn with
      | Done seg' =>
          Done {| segment_num_ := segment_num_ store;
                  segments_ := set_nth next seg' (segments_ store);
                  current_log_segment_ := next |}
      | Fatal => Fatal
      | OutOfFuel => OutOfFuel
      end
  end.

(** [SealAndOpen(log_segment)], the segment being given by its index in
    the ring. *)
Definition SealAndOpen (fuel : nat) (store : t) (log_segment : nat)
  : outcome (bool * t) :=
  match nth_error (segments_ store) log_segment with
  | None => Fatal
  | Some seg =>
      match LogSegment.TrySealLogSegment fuel seg with
      | Done (lsn, seg') =>
          let store' := set_segment store log_segment seg' in
          match lsn with
          | None => Done (false, store')
          | Some l =>
              match OpenNewLogSegment_ store' l with
              | Done store'' => Done (true, store'')
              | Fatal => Fatal
              | OutOfFuel => OutOfFuel
              end
          end
      | Fatal => Fatal
      | OutOfFuel => OutOfFuel
      end
  end.

(** A writer's [AcquireControlGuard] on a segment of the ring. *)
Definition AcquireOn (fuel : nat) (store : t) (i : nat) (length : Z)
  : outcome (option LogSegment.ControlGuard * bool * t) :=
  match nth_error (segments_ store) i with
  | None => Fatal
  | Some seg =>
      match LogSegment.AcquireControlGuard fuel seg length with
      | Done (g, must_seal, seg') => Done (g, must_seal, set_segment store i seg')
      | Fatal => Fatal
      | OutOfFuel => OutOfFuel
      end
  end.

(** [PosixLogStore::Open], as far as the ring is concerned: [segment_num]
    segments of the given size ([options.segment_num]; the segment size
    comes from the configuration), the first of which is opened at LSN 0. *)
Definition OpenRing (segment_num : nat) (segment_size : Z) : outcome t :=
  let segs := repeat (LogSegment.make segment_size) segment_num in
  match segs with
  | [] => Fatal
  | seg0 :: rest =>
      match LogSegment.OpenLogSegmentAndSetLsn seg0 0 with
      | Done seg0' =>
          Done {| segment_num_ := segment_num;
                  segments_ := seg0' :: rest;
                  current_log_segment_ := 0%nat |}
      | Fatal => Fatal
      | OutOfFuel => OutOfFuel
      end
  end.

(** Sequences of calls on the ring made by one thread. *)
Inductive StoreOp : Type :=
| OpAcquireOn (segment : nat) (length : Z)
| OpSealAndOpen (segment : nat).

Fixpoint run (fuel : nat) (store : t) (ops : list StoreOp) : outcome t :=
  match ops with
  | [] => Done store
  | OpAcquireOn i length :: rest =>
      match AcquireOn fuel store i length with
      | Done (_, _, store') => run fuel store' rest
      | Fatal => Fatal
      | OutOfFuel => OutOfFuel
      end
  | OpSealAndOpen i :: rest =>
      match SealAndOpen fuel store i with
      | Done (_, store') => run fuel store' rest
      | Fatal => Fatal
      | OutOfFuel => OutOfFuel
      end
  end.

(** The start LSN of every segment of the ring. *)
Definition start_lsns (store : t) : list Z :=
  map LogSegment.start_lsn_ (segments_ store).

End PosixLogStore.

(** ** The OCC transaction context ([txn_context_occ.cpp]) *)

Module TxnContextOCC.

(** [struct Options] ([common/options.h]).  The two pointers [schema] and
    [buffer_pool] are handles that the transaction context only passes on.

    Modelled from the spec: [check_intent_locked] and [owner_ts] are used
    by [txn_context_occ.cpp] but are missing from the [options.h] at hand;
    the specification lists them among the recognised option keys
    ("[owner_ts]: during validation, marks the transaction's own intents
    as visible"; "[check_intent_locked]: during intent writing under
    [Inlined] lock mode, causes conflict detection"). *)
Record Options : Type := mkOptions {
  disable_compaction : bool;
  ignore_lock : bool;
  check_intent_locked : bool;
  owner_ts : option Z
}.

Definition set_check_intent_locked (opts : Options) (b : bool) : Options :=
  {| disable_compaction := disable_compaction opts;
     ignore_lock := ignore_lock opts;
     check_intent_locked := b;
     owner_ts := owner_ts opts |}.

Definition set_owner_ts (opts : Options) (ts : Z) : Options :=
  {| disable_compaction := disable_compaction opts;
     ignore_lock := ignore_lock opts;
     check_intent_locked := check_intent_locked opts;
     owner_ts := Some ts |}.

Inductive TxnType : Type := ReadOnlyTxn | ReadWriteTxn.

Inductive LockManagerType : Type := kCentralized | kDecentralized | kInlined.

(** The lock table a call goes to: the context's [lock_table_] or the one
    returned by [sub_table->GetLockTable()]. *)
Inductive LockTableRef : Type :=
| SharedLockTable
| SubTableLockTable (sub_table_key : string).

(** A key of the write set and of the read set:
    [(sub_table_key, sort_key)]. *)
Definition RowKey : Type := (string * string)%type.

Definition RowKey_eqb (a b : RowKey) : bool :=
  String.eqb (fst a) (fst b) && String.eqb (snd a) (snd b).

(** *** Maps and sets of the context

    [write_set_] and [read_set_] are maps with unique keys.  They are kept
    as association lists; the order of the list is the order in which the
    range-for loops of the source visit the entries. *)

Fixpoint map_find {V : Type} (k : RowKey) (m : list (RowKey * V)) : option V :=
  match m with
  | [] => None
  | (k', v) :: rest => if RowKey_eqb k k' then Some v else map_find k rest
  end.

(** [m[k] = v]: the value of an existing key is replaced in place, a new
    key is added. *)
Fixpoint map_assign {V : Type} (k : RowKey) (v : V) (m : list (RowKey * V))
  : list (RowKey * V) :=
  match m with
  | [] => [(k, v)]
  | (k', v') :: rest =>
      if RowKey_eqb k k' then (k', v) :: rest
      else (k', v') :: map_assign k v rest
  end.

Definition set_count (x : string) (s : list string) : bool :=
  existsb (String.eqb x) s.

Definition set_insert (x : string) (s : list string) : list string :=
  if set_count x s then s else s ++ [x].

(** [lock_key.substr(0, lock_key.find("#"))]: the characters before the
    first [#], or the whole string when there is none. *)
Fixpoint ExtraceSubTableKey (lock_key : string) : string :=
  match lock_key with
  | EmptyString => EmptyString
  | String c rest =>
      if Ascii.eqb c "#"%char then EmptyString
      else String c (ExtraceSubTableKey rest)
  end.

Section Context_.

(** [property::Row] is an opaque record of bytes ([property/row.h] is not
    among the sources). *)
Context {Row : Type}.

(** The members of [TxnContextOCC].  [row_owners_] only keeps the copied
    bytes alive and has no counterpart here. *)
Record t : Type := mk {
  txn_id_ : Z;
  txn_type_ : TxnType;
  read_ts_ : Z;
  commit_ts_ : Z;
  lock_manager_type_ : LockManagerType;
  write_set_ : list (RowKey * option Row);
  read_set_ : list (RowKey * option Z);
  lock_set_ : list string;
  tables_ : list string;
  lsn_ : Z
}.

Definition set_write_set (c : t) (ws : list (RowKey * option Row)) : t :=
  {| txn_id_ := txn_id_ c; txn_type_ := txn_type_ c; read_ts_ := read_ts_ c;
     commit_ts_ := commit_ts_ c; lock_manager_type_ := lock_manager_type_ c;
     write_set_ := ws; read_set_ := read_set_ c; lock_set_ := lock_set_ c;
     tables_ := tables_ c; lsn_ := lsn_ c |}.

Definition set_read_set (c : t) (rs : list (RowKey * option Z)) : t :=
  {| txn_id_ := txn_id_ c; txn_type_ := txn_type_ c; read_ts_ := read_ts_ c;
     commit_ts_ := commit_ts_ c; lock_manager_type_ := lock_manager_type_ c;
     write_set_ := write_set_ c; read_set_ := rs; lock_set_ := lock_set_ c;
     tables_ := tables_ c; lsn_ := lsn_ c |}.

Definition set_lock_set (c : t) (ls : list string) : t :=
  {| txn_id_ := txn_id_ c; txn_type_ := txn_type_ c; read_ts_ := read_ts_ c;
     commit_ts_ := commit_ts_ c; lock_manager_type_ := lock_manager_type_ c;
     write_set_ := write_set_ c; read_set_ := read_set_ c; lock_set_ := ls;
     tables_ := tables_ c; lsn_ := lsn_ c |}.

Definition set_tables (c : t) (ts : list string) : t :=
  {| txn_id_ := txn_id_ c; txn_type_ := txn_type_ c; read_ts_ := read_ts_ c;
     commit_ts_ := commit_ts_ c; lock_manager_type_ := lock_manager_type_ c;
     write_set_ := write_set_ c; read_set_ := read_set_ c;
     lock_set_ := lock_set_ c; tables_ := ts; lsn_ := lsn_ c |}.

Definition set_commit_ts (c : t) (ts : Z) : t :=
  {| txn_id_ := txn_id_ c; txn_type_ := txn_type_ c; read_ts_ := read_ts_ c;
     commit_ts_ := ts; lock_manager_type_ := lock_manager_type_ c;
     write_set_ := write_set_ c; read_set_ := read_set_ c;
     lock_set_ := lock_set_ c; tables_ := tables_ c; lsn_ := lsn_ c |}.

Definition set_lsn (c : t) (l : Z) : t :=
  {| txn_id_ := txn_id_ c; txn_type_ := txn_type_ c; read_ts_ := read_ts_ c;
     commit_ts_ := commit_ts_ c; lock_manager_type_ := lock_manager_type_ c;
     write_set_ := write_set_ c; read_set_ := read_set_ c;
     lock_set_ := lock_set_ c; tables_ := tables_ c; lsn_ := l |}.

(** The calls that leave the transaction context, in the order in which
    they are made. *)
Inductive Event : Type :=
| EvOpenSubTable (sub_table_key : string) (opts : Options)
| EvSetRow (sub_table_key : string) (row : Row) (ts : Z) (opts : Options)
| EvDeleteRow (sub_table_key sort_key : string) (ts : Z) (opts : Options)
| EvGetRow (sub_table_key sort_key : string) (read_ts : Z) (opts : Options)
| EvSetTs (sub_table_key sort_key : string) (ts : Z) (opts : Options)
| EvLock (table : LockTableRef) (lock_key : string) (ts : Z)
| EvUnlock (table : LockTableRef) (lock_key : string) (ts : Z)
| EvRequestTs
| EvTxnManagerCommit (txn : t).

(** *** The collaborators

    The sub-tables, the lock tables and the transaction manager are not
    part of the sources at hand.  Their state is a value of an arbitrary
    type [World]; every call is a function of that state.  Reading a row
    and opening a sub-table return an answer and leave the stored data as
    they are; the other calls return the state they produce.  The status
    returned by [SetTs] and by [Unlock] is discarded by every caller in
    [txn_context_occ.cpp], so these two return the state only. *)
Class Collaborators (World : Type) : Type := {
  (** [row.GetSortKeys()] *)
  GetSortKeys : Row -> string;
  (** [view.at(0).GetTs()] *)
  GetTs : Row -> Z;
  MarkLocked : Z -> Z;
  kAbortedTxnTs : Z;
  OpenSubTable : World -> string -> Options -> Status;
  SubTable_SetRow : World -> string -> Row -> Z -> Options -> Status * World;
  SubTable_DeleteRow : World -> string -> string -> Z -> Options -> Status * World;
  SubTable_GetRow : World -> string -> string -> Z -> Options -> Status * list Row;
  SubTable_SetTs : World -> string -> string -> Z -> Options -> World;
  LockTable_Lock : World -> LockTableRef -> string -> Z -> Status * World;
  LockTable_Unlock : World -> LockTableRef -> string -> Z -> World;
  TxnManager_RequestTs : World -> Z * World;
  TxnManager_Commit : World -> t -> World
}.

Context {World : Type} {C : Collaborators World}.

(** *** The state of a run and its monad *)

Record State : Type := mkState {
  ctx : t;
  world : World;
  trace : list Event
}.

(** A computation either returns a value and a state, or the process is
    terminated ([None]): a failed [CHECK], or an access to the first row of
    an empty view. *)
Definition M (A : Type) : Type := State -> option (A * State).

Definition ret {A : Type} (a : A) : M A := fun st => Some (a, st).

Definition bind {A B : Type} (m : M A) (k : A -> M B) : M B :=
  fun st => match m st with
            | Some (a, st') => k a st'
            | None => None
            end.

Definition fatal {A : Type} : M A := fun _ => None.

Definition get_ctx : M t := fun st => Some (ctx st, st).

Definition modify_ctx (f : t -> t) : M unit :=
  fun st => Some (tt, {| ctx := f (ctx st); world := world st; trace := trace st |}).

(** A call that reads the collaborators' state. *)
Definition ask {A : Type} (ev : Event) (f : World -> A) : M A :=
  fun st => Some (f (world st),
                  {| ctx := ctx st; world := world st; trace := trace st ++ [ev] |}).

(** A call that changes the collaborators' state. *)
Definition call {A : Type} (ev : Event) (f : World -> A * World) : M A :=
  fun st => let (a, w) := f (world st) in
            Some (a, {| ctx := ctx st; world := w; trace := trace st ++ [ev] |}).

Definition call_ (ev : Event) (f : World -> World) : M unit :=
  call ev (fun w => (tt, f w)).

End Context_.

Arguments Event : clear implicits.
Arguments t : clear implicits.
Arguments Collaborators : clear implicits.
Arguments State : clear implicits.

Declare Scope txn_scope.
Delimit Scope txn_scope with txn.
Notation "x <- m ;; k" := (bind m (fun x => k))
  (at level 61, m at next level, right associativity) : txn_scope.
Notation "m ;;; k" := (bind m (fun _ => k))
  (at level 61, right associativity) : txn_scope.


Section Methods.

Context {Row World : Type} {C : Collaborators Row World}.

Local Open Scope txn_scope.

Local Notation "'TM'" := (@M Row World).

(** [GetSubTable_(sub_table_key, opts)].  A sub-table is addressed by its
    key, so the returned pointer is the key itself; [tables_] holds the
    keys of the sub-tables opened so far.  The opened table is stored under
    [table->GetTableKey()], taken to be the key it was opened with, so
    that [emplace] succeeds whenever [find] has failed. *)
Definition GetSubTable_ (sub_table_key : string) (opts : Options)
  : TM string :=
  c <- get_ctx ;;
  if set_count sub_table_key (tables_ c) then ret sub_table_key
  else
    s <- ask (EvOpenSubTable sub_table_key opts)
             (fun w => OpenSubTable w sub_table_key opts) ;;
    if ok s then
      modify_ctx (fun c => set_tables c (tables_ c ++ [sub_table_key])) ;;;
      ret sub_table_key
    else fatal.

(** [AcquireLock_(sub_table_key, sort_key, opts)] *)
Definition AcquireLock_ (sub_table_key sort_key : string) (opts : Options)
  : TM Status :=
  c <- get_ctx ;;
  match lock_manager_type_ c with
  | kInlined => ret Ok
  | _ =>
      (* [lock_key = sub_table_key; lock_key.append("#"); lock_key.append(sort_key)] *)
      let lock_key := ((sub_table_key ++ "#") ++ sort_key)%string in
      if negb (set_count lock_key (lock_set_ c)) then
        match lock_manager_type_ c with
        | kCentralized =>
            s <- call (EvLock SharedLockTable lock_key (read_ts_ c))
                      (fun w => LockTable_Lock w SharedLockTable lock_key (read_ts_ c)) ;;
            modify_ctx (fun c => set_lock_set c (set_insert lock_key (lock_set_ c))) ;;;
            ret s
        | kDecentralized =>
            sub_table <- GetSubTable_ sub_table_key opts ;;
            s <- call (EvLock (SubTableLockTable sub_table) lock_key (read_ts_ c))
                      (fun w => LockTable_Lock w (SubTableLockTable sub_table)
                                               lock_key (read_ts_ c)) ;;
            modify_ctx (fun c => set_lock_set c (set_insert lock_key (lock_set_ c))) ;;;
            ret s
        | kInlined => ret Ok
        end
      else ret Ok
  end.

(** [SetRow(sub_table_key, row, opts)].  [new_row] is a copy of the bytes
    of [row] and is the same row. *)
Definition SetRow (sub_table_key : string) (row : Row) (opts : Options)
  : TM Status :=
  s <- AcquireLock_ sub_table_key (GetSortKeys row) opts ;;
  if negb (ok s) then ret s
  else
    let new_row := row in
    modify_ctx (fun c =>
      set_write_set c
        (map_assign (sub_table_key, GetSortKeys new_row) (Some new_row)
                    (write_set_ c))) ;;;
    ret Ok.

(** [DeleteRow(sub_table_key, sort_key, opts)] *)
Definition DeleteRow (sub_table_key sort_key : string) (opts : Options)
  : TM Status :=
  s <- AcquireLock_ sub_table_key sort_key opts ;;
  if negb (ok s) then ret s
  else
    modify_ctx (fun c =>
      set_write_set c (map_assign (sub_table_key, sort_key) None (write_set_ c))) ;;;
    ret Ok.

(** [sub_table->GetRow(sort_key, ts, opts, view)]: the rows found are
    pushed at the back of [view]. *)
Definition SubTable_GetRow_into (sub_table sort_key : string) (ts : Z)
           (opts : Options) (view : list Row) : TM (Status * list Row) :=
  r <- ask (EvGetRow sub_table sort_key ts opts)
           (fun w => SubTable_GetRow w sub_table sort_key ts opts) ;;
  ret (fst r, view ++ snd r).

(** [view.at(0)] *)
Definition at0 (view : list Row) : TM Row :=
  match view with
  | r :: _ => ret r
  | [] => fatal
  end.

(** [GetRow(sub_table_key, sort_key, opts, view)]; [view] is the caller's
    view, the result carries the view after the call. *)
Definition GetRow (sub_table_key sort_key : string) (opts : Options)
           (view : list Row) : TM (Status * list Row) :=
  sub_table <- GetSubTable_ sub_table_key opts ;;
  c <- get_ctx ;;
  match txn_type_ c with
  | ReadOnlyTxn =>
      SubTable_GetRow_into sub_table sort_key (read_ts_ c) opts view
  | ReadWriteTxn =>
      match map_find (sub_table_key, sort_key) (write_set_ c) with
      | Some None => ret (NotFound, view)
      | Some (Some row) => ret (Ok, view ++ [row])
      | None =>
          r <- SubTable_GetRow_into sub_table sort_key (read_ts_ c) opts view ;;
          let (s, view') := r in
          if IsNotFound s then
            modify_ctx (fun c =>
              set_read_set c
                (map_assign (sub_table_key, sort_key) None (read_set_ c))) ;;;
            ret (s, view')
          else
            row <- at0 view' ;;
            modify_ctx (fun c =>
              set_read_set c
                (map_assign (sub_table_key, sort_key) (Some (GetTs row))
                            (read_set_ c))) ;;;
            ret (s, view')
      end
  end.

(** The inner loop of [WriteIntents_] over [undo_list]. *)
Fixpoint undo_intents (undo_list : list RowKey) (opts : Options) : TM unit :=
  match undo_list with
  | [] => ret tt
  | entry :: rest =>
      sub_table <- GetSubTable_ (fst entry) opts ;;
      call_ (EvSetTs sub_table (snd entry) kAbortedTxnTs opts)
            (fun w => SubTable_SetTs w sub_table (snd entry) kAbortedTxnTs opts) ;;;
      undo_intents rest opts
  end.

(** The loop of [WriteIntents_] over the entries of [write_set_] that are
    still to be visited. *)
Fixpoint WriteIntents_loop (entries : list (RowKey * option Row))
         (undo_list : list RowKey) (opts : Options) : TM Status :=
  match entries with
  | [] => ret Ok
  | (k, v) :: rest =>
      sub_table <- GetSubTable_ (fst k) opts ;;
      c <- get_ctx ;;
      s <- match v with
           | Some row =>
               call (EvSetRow sub_table row (MarkLocked (read_ts_ c)) opts)
                    (fun w => SubTable_SetRow w sub_table row
                                              (MarkLocked (read_ts_ c)) opts)
           | None =>
               call (EvDeleteRow sub_table (snd k) (MarkLocked (read_ts_ c)) opts)
                    (fun w => SubTable_DeleteRow w sub_table (snd k)
                                                 (MarkLocked (read_ts_ c)) opts)
           end ;;
      if negb (ok s) then
        undo_intents undo_list opts ;;;
        ret s
      else
        WriteIntents_loop rest (undo_list ++ [k]) opts
  end.

Definition WriteIntents_ (opts : Options) : TM Status :=
  c <- get_ctx ;;
  WriteIntents_loop (write_set_ c) [] opts.

(** The loop of [ValidateRead_]. *)
Fixpoint ValidateRead_loop (entries : list (RowKey * option Z))
         (opts tmp_opt : Options) : TM bool :=
  match entries with
  | [] => ret true
  | (k, v) :: rest =>
      sub_table <- GetSubTable_ (fst k) opts ;;
      c <- get_ctx ;;
      r <- SubTable_GetRow_into sub_table (snd k) (commit_ts_ c) tmp_opt [] ;;
      let (s, view) := r in
      match v with
      | Some ts =>
          if negb (ok s) then ret false
          else
            row <- at0 view ;;
            if negb (GetTs row =? ts)%Z then ret false
            else ValidateRead_loop rest opts tmp_opt
      | None =>
          if negb (IsNotFound s) then ret false
          else ValidateRead_loop rest opts tmp_opt
      end
  end.

Definition ValidateRead_ (opts : Options) : TM bool :=
  c <- get_ctx ;;
  let tmp_opt := set_owner_ts opts (read_ts_ c) in
  ValidateRead_loop (read_set_ c) opts tmp_opt.

(** The loop shared by [CommitIntents_] and [AbortIntents_], which differ
    in the timestamp only. *)
Fixpoint stamp_intents (entries : list (RowKey * option Row)) (ts : Z)
         (opts : Options) : TM unit :=
  match entries with
  | [] => ret tt
  | (k, v) :: rest =>
      sub_table <- GetSubTable_ (fst k) opts ;;
      call_ (EvSetTs sub_table (snd k) ts opts)
            (fun w => SubTable_SetTs w sub_table (snd k) ts opts) ;;;
      stamp_intents rest ts opts
  end.

Definition CommitIntents_ (opts : Options) : TM unit :=
  c <- get_ctx ;;
  stamp_intents (write_set_ c) (commit_ts_ c) opts.

Definition AbortIntents_ (opts : Options) : TM unit :=
  c <- get_ctx ;;
  stamp_intents (write_set_ c) kAbortedTxnTs opts.

(** The two loops of [ReleaseLock_]. *)
Fixpoint unlock_shared (locks : list string) (read_ts : Z) : TM unit :=
  match locks with
  | [] => ret tt
  | lock :: rest =>
      call_ (EvUnlock SharedLockTable lock read_ts)
            (fun w => LockTable_Unlock w SharedLockTable lock read_ts) ;;;
      unlock_shared rest read_ts
  end.

Fixpoint unlock_sub_tables (locks : list string) (read_ts : Z)
         (opts : Options) : TM unit :=
  match locks with
  | [] => ret tt
  | lock :: rest =>
      sub_table <- GetSubTable_ (ExtraceSubTableKey lock) opts ;;
      call_ (EvUnlock (SubTableLockTable sub_table) lock read_ts)
            (fun w => LockTable_Unlock w (SubTableLockTable sub_table) lock read_ts) ;;;
      unlock_sub_tables rest read_ts opts
  end.

Definition ReleaseLock_ (opts : Options) : TM unit :=
  c <- get_ctx ;;
  match lock_manager_type_ c with
  | kCentralized => unlock_shared (lock_set_ c) (read_ts_ c)
  | kDecentralized => unlock_sub_tables (lock_set_ c) (read_ts_ c) opts
  | kInlined => ret tt
  end.

Definition LockManagerType_eqb (a b : LockManagerType) : bool :=
  match a, b with
  | kCentralized, kCentralized | kDecentralized, kDecentralized
  | kInlined, kInlined => true
  | _, _ => false
  end.

(** [CommitOrAbort(opts)].  The clean-up [defer] runs [ReleaseLock_] when
    the scope is left, that is after the returned status is built. *)
Definition CommitOrAbort (opts : Options) : TM Status :=
  c <- get_ctx ;;
  match txn_type_ c with
  | ReadOnlyTxn => ret Commit
  | ReadWriteTxn =>
      let write_intent_opts :=
        set_check_intent_locked opts
          (LockManagerType_eqb (lock_manager_type_ c) kInlined) in
      s <- WriteIntents_ write_intent_opts ;;
      if negb (ok s) then
        ReleaseLock_ opts ;;;
        ret Abort
      else
        ts <- call EvRequestTs TxnManager_RequestTs ;;
        modify_ctx (fun c => set_commit_ts c ts) ;;;
        valid <- ValidateRead_ opts ;;
        if negb valid then
          AbortIntents_ opts ;;;
          ReleaseLock_ opts ;;;
          ret Abort
        else
          CommitIntents_ opts ;;;
          c <- get_ctx ;;
          call_ (EvTxnManagerCommit c) (fun w => TxnManager_Commit w c) ;;;
          ReleaseLock_ opts ;;;
          ret Commit
  end.

(** *** Programs of a client *)

Inductive TxnOp : Type :=
| OpSetRow (sub_table_key : string) (row : Row)
| OpDeleteRow (sub_table_key sort_key : string)
| OpGetRow (sub_table_key sort_key : string).

(** One call of the client; a read starts from an empty view. *)
Definition exec (opts : Options) (op : TxnOp) : TM Status :=
  match op with
  | OpSetRow k row => SetRow k row opts
  | OpDeleteRow k sk => DeleteRow k sk opts
  | OpGetRow k sk => r <- GetRow k sk opts [] ;; ret (fst r)
  end.

Fixpoint run_ops (opts : Options) (ops : list TxnOp) : TM unit :=
  match ops with
  | [] => ret tt
  | op :: rest => exec opts op ;;; run_ops opts rest
  end.

(** The key a call writes to, if it is a write. *)
Definition written_key (op : TxnOp) : option RowKey :=
  match op with
  | OpSetRow k row => Some (k, GetSortKeys row)
  | OpDeleteRow k sk => Some (k, sk)
  | OpGetRow _ _ => None
  end.

Definition writes_to (key : RowKey) (op : TxnOp) : bool :=
  match written_key op with
  | Some key' => RowKey_eqb key key'
  | None => false
  end.

(** *** Vocabulary of the statements *)

(** The calls made on the rows of a sub-table. *)
Definition is_subtable_call (ev : Event Row) : bool :=
  match ev with
  | EvSetRow _ _ _ _ | EvDeleteRow _ _ _ _ | EvGetRow _ _ _ _
  | EvSetTs _ _ _ _ => true
  | _ => false
  end.

Definition subtable_calls (tr : list (Event Row)) : list (Event Row) :=
  filter is_subtable_call tr.

(** The intent written for an entry of the write set, as a call and as its
    effect on the collaborators. *)
Definition write_event (read_ts : Z) (opts : Options)
           (entry : RowKey * option Row) : Event Row :=
  match snd entry with
  | Some row => EvSetRow (fst (fst entry)) row (MarkLocked read_ts) opts
  | None =>
      EvDeleteRow (fst (fst entry)) (snd (fst entry)) (MarkLocked read_ts) opts
  end.

Definition intent_write (read_ts : Z) (opts : Options) (w : World)
           (entry : RowKey * option Row) : Status * World :=
  match snd entry with
  | Some row =>
      SubTable_SetRow w (fst (fst entry)) row (MarkLocked read_ts) opts
  | None =>
      SubTable_DeleteRow w (fst (fst entry)) (snd (fst entry))
                         (MarkLocked read_ts) opts
  end.

(** The collaborators' state after the intents of [entries] were written
    one after the other, and whether all of these writes succeeded. *)
Definition after_writes (read_ts : Z) (opts : Options) (w : World)
           (entries : list (RowKey * option Row)) : World :=
  fold_left (fun w e => snd (intent_write read_ts opts w e)) entries w.

Fixpoint writes_succeed (read_ts : Z) (opts : Options) (w : World)
         (entries : list (RowKey * option Row)) : bool :=
  match entries with
  | [] => true
  | e :: rest =>
      ok (fst (intent_write read_ts opts w e))
      && writes_succeed read_ts opts (snd (intent_write read_ts opts w e)) rest
  end.

Definition stamp_event (ts : Z) (opts : Options) (key : RowKey) : Event Row :=
  EvSetTs (fst key) (snd key) ts opts.

Definition read_event (ts : Z) (opts : Options) (key : RowKey) : Event Row :=
  EvGetRow (fst key) (snd key) ts opts.

(** The re-check of one entry of the read set, in the words of the
    specification: the sub-table is read at [commit_ts] with the options
    [tmp_opt]; an entry [Some ts] passes when the read succeeds and the
    version it sees has timestamp [ts]; an entry [None] passes when the
    read returns [NotFound]. *)
Definition entry_passes (w : World) (commit_ts : Z) (tmp_opt : Options)
           (entry : RowKey * option Z) : bool :=
  let (s, view) :=
    SubTable_GetRow w (fst (fst entry)) (snd (fst entry)) commit_ts tmp_opt in
  match snd entry with
  | Some ts =>
      ok s && match view with
              | row :: _ => (GetTs row =? ts)%Z
              | [] => false
              end
  | None => IsNotFound s
  end.

(** The collaborators can be relied on to open every sub-table (the
    [CHECK] of [GetSubTable_]) and to hand back a row with every successful
    read. *)
Definition opens_succeed : Prop :=
  forall w k opts, ok (OpenSubTable w k opts) = true.

Definition reads_return_rows : Prop :=
  forall w k sk ts opts,
    ok (fst (SubTable_GetRow w k sk ts opts)) = true ->
    snd (SubTable_GetRow w k sk ts opts) <> [].

(** *** Relations between the states of a run *)

(** [c'] is [c] with other sub-tables opened. *)
Definition retabled (c c' : t Row) : Prop := c' = set_tables c (tables_ c').

(** A run that only opened sub-tables and appended [evs] to the trace. *)
Definition extends (st st' : State Row World) (evs : list (Event Row)) : Prop :=
  retabled (ctx st) (ctx st') /\ trace st' = trace st ++ evs.

(** What a call of the client leaves untouched. *)
Definition kept (st st' : State Row World) : Prop :=
  txn_type_ (ctx st') = txn_type_ (ctx st) /\
  read_set_ (ctx st') = read_set_ (ctx st) /\
  write_set_ (ctx st') = write_set_ (ctx st) /\
  exists evs, trace st' = trace st ++ evs /\ subtable_calls evs = [].

(** What a write of the client does to the context. *)
Definition wrote (key : RowKey) (v : option Row) (s : Status)
           (st st' : State Row World) : Prop :=
  txn_type_ (ctx st') = txn_type_ (ctx st) /\
  write_set_ (ctx st') =
    (if ok s then map_assign key v (write_set_ (ctx st))
     else write_set_ (ctx st)).

End Methods.

(** *** The durability hooks *)

(** Modelled from the spec: [wal::OccLogWriter] ([wal/occ_log.h]) is not
    among the sources.  The specification names the record types
    "[Begin(read_ts)], [Commit(read_ts, commit_ts)], [Abort(read_ts)]" and
    leaves their serialization to the record writer; the writer is the list
    of the records appended so far. *)
Inductive OccLogRecord : Type :=
| LogBegin (read_ts : Z)
| LogCommit (read_ts commit_ts : Z)
| LogAbort (read_ts : Z).

Definition OccLogWriter : Type := list OccLogRecord.

Section Durability.

Context {Row : Type}.

(** The byte string of a record (the serialization of [OccLogWriter]). *)
Variable Serialize : OccLogRecord -> string.

Definition GetLogRecords (log_writer : OccLogWriter) : list string :=
  map Serialize log_writer.

(** [WriteLogHelper_(log_store, lsn, func)].  A null [log_store] is [None].
    The result is the value of [*lsn] after the call; [None] stands for
    the access [result[0]] falling outside [result]. *)
Definition WriteLogHelper_ (log_store : option PosixLogStore.t) (lsn : Z)
           (func : OccLogWriter -> OccLogWriter) : option Z :=
  match log_store with
  | None => Some lsn
  | Some store =>
      let log_writer : OccLogWriter := [] in
      let log_writer := func log_writer in
      let result : list PosixLogStore.LsnRange := [] in
      let (_, result) :=
        PosixLogStore.AppendLogRecord store (GetLogRecords log_writer) result in
      match nth_error result 0 with
      | Some r => Some (Z.max lsn (PosixLogStore.end_lsn r))
      | None => None
      end
  end.

Definition Begin_ (c : t Row) (log_store : option PosixLogStore.t)
  : option (t Row) :=
  match WriteLogHelper_ log_store (lsn_ c)
          (fun log_writer => log_writer ++ [LogBegin (read_ts_ c)]) with
  | Some l => Some (set_lsn c l)
  | None => None
  end.

Definition Commit_ (c : t Row) (log_store : option PosixLogStore.t)
  : option (t Row) :=
  match WriteLogHelper_ log_store (lsn_ c)
          (fun log_writer =>
             log_writer ++ [LogCommit (read_ts_ c) (commit_ts_ c)]) with
  | Some l => Some (set_lsn c l)
  | None => None
  end.

Definition Abort_ (c : t Row) (log_store : option PosixLogStore.t)
  : option (t Row) :=
  match WriteLogHelper_ log_store (lsn_ c)
          (fun log_writer => log_writer ++ [LogAbort (read_ts_ c)]) with
  | Some l => Some (set_lsn c l)
  | None => None
  end.

End Durability.

End TxnContextOCC.

(** ** The versioned delta-chain page

    [btree/page/versioned_bwtree_page.h] is not among the sources; only its
    test is.  The page is modelled from the specification (sections 3 and
    4.1). *)

Module VersionedPage.

Import TxnContextOCC.

(** Modelled from the spec: a timestamp is a 64-bit unsigned number in
    which "a subset of high bits encodes an intent/locked flag";
    [kAbortedTxnTs] is a "distinct marker meaning this version is dead".
    Neither the flag bits nor the marker are given a value, so they are
    taken as they come: the marker, the test of the flag, and the read
    timestamp of the transaction that owns a locked timestamp. *)
Class TsLayout : Type := {
  page_kAbortedTxnTs : Z;
  IsLocked : Z -> bool;
  OwnerOf : Z -> Z
}.

Section Page.

Context {Row : Type} {L : TsLayout}.

(** [sort_key(row)] of the external row encoder. *)
Variable sort_key : Row -> string.

(** Modelled from the spec: "DeltaEntry: one of [Insert(row, ts)],
    [Update(row, ts)], [Delete(sort_key, ts)], or a
    [Base(map<SortKey, Row@ts>)] consolidated snapshot." *)
Inductive DeltaEntry : Type :=
| Insert (row : Row) (ts : Z)
| Update (row : Row) (ts : Z)
| Delete (sk : string) (ts : Z)
| Base (snapshot : list (string * (Row * Z))).

(** Modelled from the spec: "DeltaChain: ordered newest-first sequence of
    [DeltaEntry]"; a page "contains the current head pointer of the delta
    chain". *)
Definition Page : Type := list DeltaEntry.

(** Modelled from the spec: an entry is skipped when it is "locked by
    another": it carries the locked flag and its owner is not
    [opts.owner_ts]. *)
Definition locked_by_another (opts : Options) (ts : Z) : bool :=
  IsLocked ts &&
  match owner_ts opts with
  | Some o => negb (OwnerOf ts =? o)
  | None => true
  end.

(** Modelled from the spec: the entries that decide a read are those
    "with [ts <= read_ts], [ts <> kAbortedTxnTs], and not
    locked-by-another". *)
Definition decides (read_ts : Z) (opts : Options) (ts : Z) : bool :=
  (ts <=? read_ts) && negb (ts =? page_kAbortedTxnTs)
  && negb (locked_by_another opts ts).

(** Lookup in the map of a [Base] entry. *)
Fixpoint snapshot_find (sk : string) (m : list (string * (Row * Z)))
  : option (Row * Z) :=
  match m with
  | [] => None
  | (k, v) :: rest => if String.eqb sk k then Some v else snapshot_find sk rest
  end.

(** Modelled from the spec: "[GetRow(sort_key, read_ts, opts, out view)].
    Walks the chain from newest to oldest; the first entry for [sort_key]
    with [ts <= read_ts], [ts <> kAbortedTxnTs], and not locked-by-another
    determines the result. ... A [Delete] resolves to [NotFound].  No
    matching entry resolves to [NotFound]."  The view holds the row found
    and the timestamp of its version. *)
Fixpoint GetRow (page : Page) (sk : string) (read_ts : Z) (opts : Options)
  : Status * list (Row * Z) :=
  match page with
  | [] => (NotFound, [])
  | Insert row ts :: older | Update row ts :: older =>
      if String.eqb (sort_key row) sk && decides read_ts opts ts
      then (Ok, [(row, ts)])
      else GetRow older sk read_ts opts
  | Delete k ts :: older =>
      if String.eqb k sk && decides read_ts opts ts
      then (NotFound, [])
      else GetRow older sk read_ts opts
  | Base snapshot :: older =>
      match snapshot_find sk snapshot with
      | Some (row, ts) =>
          if decides read_ts opts ts then (Ok, [(row, ts)])
          else GetRow older sk read_ts opts
      | None => GetRow older sk read_ts opts
      end
  end.

(** Modelled from the spec: the configured bound [DeltaChainLength] and
    the compaction that replaces the chain when the bound is exceeded.  The
    specification leaves the discipline open ("either discipline is
    acceptable") and fixes its observable contract only, which the
    statements about the page take as their hypothesis
    [compaction_keeps_reads]. *)
Variable DeltaChainLength : nat.
Variable compact : Page -> Page.

(** Modelled from the spec: "After compaction, observable read results at
    every previously valid [read_ts] are unchanged." *)
Definition compaction_keeps_reads : Prop :=
  forall page sk read_ts opts,
    GetRow (compact page) sk read_ts opts = GetRow page sk read_ts opts.

(** Modelled from the spec: "[TEST_GetDeltaLength()]: observable chain
    length, used by tests." *)
Definition TEST_GetDeltaLength (page : Page) : nat := List.length page.

(** Modelled from the spec: "If [opts.disable_compaction] is false and
    chain length after installation exceeds the threshold, enqueues or
    runs a compaction." *)
Definition install (page : Page) (entry : DeltaEntry) (opts : Options) : Page :=
  let page' := entry :: page in
  if negb (disable_compaction opts)
     && (DeltaChainLength <? TEST_GetDeltaLength page')%nat
  then compact page'
  else page'.

(** Whether an entry holds a version of the sort key. *)
Definition has_sort_key (sk : string) (entry : DeltaEntry) : bool :=
  match entry with
  | Insert row _ | Update row _ => String.eqb (sort_key row) sk
  | Delete k _ => String.eqb k sk
  | Base snapshot =>
      match snapshot_find sk snapshot with Some _ => true | None => false end
  end.

(** Modelled from the spec: "[SetRow(row, ts, opts)].  Installs an
    [Insert/Update] delta at the head of the chain.  Succeeds
    unconditionally from the page's perspective."  The delta is an
    [Update] when the chain already holds the sort key and an [Insert]
    otherwise; reads treat the two alike. *)
Definition SetRow (page : Page) (row : Row) (ts : Z) (opts : Options)
  : Status * Page :=
  let entry :=
    if existsb (has_sort_key (sort_key row)) page
    then Update row ts else Insert row ts in
  (Ok, install page entry opts).

(** Modelled from the spec: "[DeleteRow(sort_key, ts, opts)].  Installs a
    [Delete] delta.  Same compaction rule." *)
Definition DeleteRow (page : Page) (sk : string) (ts : Z) (opts : Options)
  : Status * Page :=
  (Ok, install page (Delete sk ts) opts).

End Page.

(** A compaction that drops the versions stamped [kAbortedTxnTs]. *)
Definition is_dead {Row : Type} {L : TsLayout} (entry : @DeltaEntry Row) : bool :=
  match entry with
  | Insert _ ts | Update _ ts | Delete _ ts => ts =? page_kAbortedTxnTs
  | Base _ => false
  end.

Definition drop_dead {Row : Type} {L : TsLayout} (page : @Page Row) : @Page Row :=
  filter (fun e => negb (is_dead e)) page.

End VersionedPage.

(** ** A small instance of the collaborators

    Used to run the transaction context on concrete inputs. *)

Module Demo.

Import TxnContextOCC.

(** A row: its sort key and the timestamp of its version. *)
Definition Row : Type := (string * Z)%type.

(** The collaborators' state: the clock of the transaction manager and the
    committed version of every stored key. *)
Definition World : Type := (Z * list (RowKey * Z))%type.

(** An intent on the sort key [locked] meets the intent of another
    transaction; the conflict is reported when the caller asks for the
    check. *)
Definition conflicts (opts : Options) (sk : string) : bool :=
  check_intent_locked opts && String.eqb sk "locked".

Definition read (w : World) (k sk : string) (ts : Z) : Status * list Row :=
  match map_find (k, sk) (snd w) with
  | Some v => if v <=? ts then (Ok, [(sk, v)]) else (NotFound, [])
  | None => (NotFound, [])
  end.

#[export] Instance collaborators : Collaborators Row World := {|
  GetSortKeys := fun row => fst row;
  GetTs := fun row => snd row;
  MarkLocked := fun ts => Z.lor ts (2 ^ 63);
  kAbortedTxnTs := 2 ^ 64 - 1;
  OpenSubTable := fun _ _ _ => Ok;
  SubTable_SetRow := fun w _ row _ opts =>
    if conflicts opts (fst row) then (Conflict, w) else (Ok, w);
  SubTable_DeleteRow := fun w _ sk _ opts =>
    if conflicts opts sk then (Conflict, w) else (Ok, w);
  SubTable_GetRow := fun w k sk ts _ => read w k sk ts;
  SubTable_SetTs := fun w _ _ _ _ => w;
  LockTable_Lock := fun w _ _ _ => (Ok, w);
  LockTable_Unlock := fun w _ _ _ => w;
  TxnManager_RequestTs := fun w => (fst w + 1, (fst w + 1, snd w));
  TxnManager_Commit := fun w _ => w
|}.

Definition opts : Options :=
  {| disable_compaction := false; ignore_lock := false;
     check_intent_locked := false; owner_ts := None |}.

(** The sub-table [t] holds the key [a] in version 3; the clock is at 10. *)
Definition w0 : World := (10, [(("t"%string, "a"%string), 3)]).

(** A read-write transaction at read timestamp 5 that has read [a] in
    version 3 and has buffered a write to [b]. *)
Definition txn (lock_manager_type : LockManagerType)
           (write_set : list (RowKey * option Row)) : t Row :=
  {| txn_id_ := 1; txn_type_ := ReadWriteTxn; read_ts_ := 5; commit_ts_ := 0;
     lock_manager_type_ := lock_manager_type;
     write_set_ := write_set;
     read_set_ := [(("t"%string, "a"%string), Some 3)];
     lock_set_ := ["t#b"%string];
     tables_ := [];
     lsn_ := 0 |}.

Definition st_reader : State Row World :=
  {| ctx := txn kDecentralized [(("t"%string, "b"%string), Some ("b"%string, 0))];
     world := w0; trace := [] |}.

(** The second of three buffered writes meets a foreign intent. *)
Definition st_conflict : State Row World :=
  {| ctx := txn kInlined
              [(("t"%string, "a"%string), Some ("a"%string, 0));
               (("t"%string, "locked"%string), Some ("locked"%string, 0));
               (("t"%string, "z"%string), None)];
     world := w0; trace := [] |}.

(** The state in which a computation ends. *)
Definition after {A : Type} (m : M A) (st : State Row World) : State Row World :=
  match m st with
  | Some (_, st') => st'
  | None => st
  end.

(** Rows of a page: the sort key and the value, as in the page test. *)
Definition PageRow : Type := (string * string)%type.

#[export] Instance layout : VersionedPage.TsLayout := {|
  VersionedPage.page_kAbortedTxnTs := 2 ^ 64 - 1;
  VersionedPage.IsLocked := fun ts => Z.testbit ts 63;
  VersionedPage.OwnerOf := fun ts => Z.land ts (2 ^ 63 - 1)
|}.

End Demo.

(** * Properties *)

(** ** The control word and the segment operations *)

Module LogSegmentProofs.

Import LogSegment.

(** *** The accessors in arithmetic form *)

Lemma GetLsn_mod (w : Z) : GetLsn_ w = w mod 2 ^ 48.
Proof.
  unfold GetLsn_. change kLsnMaskbit with (Z.ones 48). apply Z.land_ones. lia.
Qed.

Lemma GetWriterNum_div (w : Z) : GetWriterNum_ w = (w / 2 ^ 48) mod 2 ^ 15.
Proof.
  unfold GetWriterNum_, kWriterNumOffset, kWriterNumMaskbit.
  rewrite Z.shiftr_div_pow2 by lia.
  change 32767 with (Z.ones 15). apply Z.land_ones. lia.
Qed.

Lemma IsSealed_div (w : Z) : IsSealed_ w = negb ((w / 2 ^ 63) mod 2 =? 0).
Proof.
  unfold IsSealed_, kIsSealedOffset, kIsSealedMaskbit.
  rewrite Z.shiftr_div_pow2 by lia.
  change 1 with (Z.ones 1) at 1. rewrite Z.land_ones by lia. reflexivity.
Qed.

Lemma IsSealed_testbit (w : Z) : IsSealed_ w = Z.testbit w 63.
Proof.
  rewrite IsSealed_div. rewrite <- Z.shiftr_div_pow2 by lia.
  rewrite <- Z.bit0_mod. rewrite Z.shiftr_spec by lia. simpl (0 + 63).
  destruct (Z.testbit w 63); reflexivity.
Qed.

(** Turns a goal about the fields of a control word into linear
    arithmetic over quotients and remainders by constants. *)
Ltac fields :=
  rewrite ?GetLsn_mod, ?GetWriterNum_div, ?IsSealed_div in *;
  unfold IncrWriterNum_, DecrWriterNum_, BumpLsn_, is_u64,
    kMaximumWriterNum, kWriterNumMaskbit, kWriterNumOffset in *;
  unfold wrap64 in *; unfold two64 in *;
  change (Z.shiftl 1 48) with 281474976710656 in *;
  change (2 ^ 48) with 281474976710656 in *;
  change (2 ^ 15) with 32768 in *;
  change (2 ^ 63) with 9223372036854775808 in *.

Ltac field_goals :=
  repeat split;
  match goal with
  | |- negb _ = negb _ => f_equal; f_equal
  | _ => idtac
  end; Z.div_mod_to_equations; lia.

Lemma GetLsn_range (w : Z) : 0 <= GetLsn_ w < 2 ^ 48.
Proof. rewrite GetLsn_mod. apply Z.mod_pos_bound. lia. Qed.

Lemma GetWriterNum_range (w : Z) : 0 <= GetWriterNum_ w < 2 ^ 15.
Proof. rewrite GetWriterNum_div. apply Z.mod_pos_bound. lia. Qed.

Lemma Incr_fields (w : Z) :
  is_u64 w -> GetWriterNum_ w < 2 ^ 15 - 1 ->
  GetWriterNum_ (IncrWriterNum_ w) = GetWriterNum_ w + 1 /\
  GetLsn_ (IncrWriterNum_ w) = GetLsn_ w /\
  IsSealed_ (IncrWriterNum_ w) = IsSealed_ w /\
  is_u64 (IncrWriterNum_ w).
Proof. intros Hw Hc. fields. field_goals. Qed.

Lemma Decr_fields (w : Z) :
  is_u64 w -> 0 < GetWriterNum_ w ->
  GetWriterNum_ (DecrWriterNum_ w) = GetWriterNum_ w - 1 /\
  GetLsn_ (DecrWriterNum_ w) = GetLsn_ w /\
  IsSealed_ (DecrWriterNum_ w) = IsSealed_ w /\
  is_u64 (DecrWriterNum_ w).
Proof. intros Hw Hc. fields. field_goals. Qed.

Lemma Bump_fields (w len : Z) :
  is_u64 w -> 0 <= len -> GetLsn_ w + len < 2 ^ 48 ->
  GetLsn_ (BumpLsn_ w len) = GetLsn_ w + len /\
  GetWriterNum_ (BumpLsn_ w len) = GetWriterNum_ w /\
  IsSealed_ (BumpLsn_ w len) = IsSealed_ w /\
  is_u64 (BumpLsn_ w len).
Proof. intros Hw Hl Hc. fields. field_goals. Qed.

Lemma MarkSealed_bits (w n : Z) :
  0 <= n -> Z.testbit (MarkSealed_ w) n = Z.testbit w n || (n =? 63).
Proof.
  intros Hn. unfold MarkSealed_.
  change (wrap64 (Z.shiftl 1 kIsSealedOffset)) with (2 ^ 63).
  rewrite Z.lor_spec, Z.pow2_bits_eqb by lia.
  rewrite (Z.eqb_sym 63 n). reflexivity.
Qed.

Lemma MarkSealed_u64 (w : Z) : is_u64 w -> is_u64 (MarkSealed_ w).
Proof.
  intros [H0 H1]. unfold MarkSealed_.
  change (wrap64 (Z.shiftl 1 kIsSealedOffset)) with (2 ^ 63).
  assert (Hlor : 0 <= Z.lor w (2 ^ 63)) by (apply Z.lor_nonneg; lia).
  split; [exact Hlor|].
  destruct (Z.eq_dec w 0) as [->|Hnz]; [reflexivity|].
  destruct (Z.eq_dec (Z.lor w (2 ^ 63)) 0) as [E|Hnz']; [rewrite E; reflexivity|].
  change two64 with (2 ^ 64) in *.
  apply Z.log2_lt_pow2; [lia|].
  rewrite Z.log2_lor by lia.
  apply Z.max_lub_lt.
  - apply Z.log2_lt_pow2; [lia| exact H1].
  - change (Z.log2 (2 ^ 63)) with 63. lia.
Qed.

Lemma MarkSealed_fields (w : Z) :
  IsSealed_ (MarkSealed_ w) = true /\
  GetLsn_ (MarkSealed_ w) = GetLsn_ w /\
  GetWriterNum_ (MarkSealed_ w) = GetWriterNum_ w.
Proof.
  repeat split.
  - rewrite IsSealed_testbit, MarkSealed_bits by lia. apply orb_true_r.
  - unfold GetLsn_. apply Z.bits_inj'. intros n Hn.
    rewrite !Z.land_spec, MarkSealed_bits by lia.
    change kLsnMaskbit with (Z.ones 48).
    destruct (Z.eqb_spec n 63) as [->|Hne].
    + rewrite Z.ones_spec_high by lia. rewrite !andb_false_r. reflexivity.
    + rewrite orb_false_r. reflexivity.
  - unfold GetWriterNum_, kWriterNumOffset, kWriterNumMaskbit.
    apply Z.bits_inj'. intros n Hn.
    rewrite !Z.land_spec, !Z.shiftr_spec, MarkSealed_bits by lia.
    change 32767 with (Z.ones 15).
    destruct (Z.eqb_spec (n + 48) 63) as [E|Hne].
    + rewrite Z.ones_spec_high by lia. rewrite !andb_false_r. reflexivity.
    + rewrite orb_false_r. reflexivity.
Qed.

(** *** The compare-and-exchange loops *)

Lemma compare_exchange_same (c d : Z) : compare_exchange c c d = (true, d, c).
Proof. unfold compare_exchange. rewrite Z.eqb_refl. reflexivity. Qed.

Lemma compare_exchange_diff (c e d : Z) :
  c <> e -> compare_exchange c e d = (false, c, c).
Proof.
  intros H. unfold compare_exchange.
  destruct (Z.eqb_spec c e); [contradiction|reflexivity].
Qed.

Lemma MarkSealed_changes (w : Z) : IsSealed_ w = false -> MarkSealed_ w <> w.
Proof.
  intros Hs E. pose proof (MarkSealed_fields w) as [H _].
  rewrite E in H. congruence.
Qed.

Lemma Decr_changes (w : Z) : is_u64 w -> DecrWriterNum_ w <> w.
Proof. intros Hw. fields. Z.div_mod_to_equations. lia. Qed.

(** After its exchange has succeeded the loop of [TrySealLogSegment] runs
    its body once more on the stale [current_control_bits], the second
    exchange fails, and the loop is left. *)
Lemma TrySealLogSegment_loop_unsealed (fuel : nat) (w : Z) :
  IsSealed_ w = false ->
  TrySealLogSegment_loop (S (S fuel)) w w
  = Done (Some (GetLsn_ (MarkSealed_ w)), MarkSealed_ w).
Proof.
  intros Hs. cbn [TrySealLogSegment_loop]. rewrite Hs.
  rewrite compare_exchange_same. rewrite Hs.
  rewrite compare_exchange_diff by (apply MarkSealed_changes; exact Hs).
  reflexivity.
Qed.

Lemma TrySealLogSegment_loop_sealed (fuel : nat) (w : Z) :
  IsSealed_ w = true -> TrySealLogSegment_loop (S fuel) w w = Done (None, w).
Proof. intros Hs. cbn [TrySealLogSegment_loop]. rewrite Hs. reflexivity. Qed.

Lemma OnWriterExit_loop_run (fuel : nat) (w : Z) :
  is_u64 w ->
  OnWriterExit_loop (S (S fuel)) false w w
  = Done (negb (GetWriterNum_ (DecrWriterNum_ w) =? 0) && IsSealed_ w,
          DecrWriterNum_ w).
Proof.
  intros Hw. cbn [OnWriterExit_loop].
  rewrite compare_exchange_same.
  rewrite compare_exchange_diff by (apply Decr_changes; exact Hw).
  destruct (negb (GetWriterNum_ (DecrWriterNum_ w) =? 0) && IsSealed_ w);
    reflexivity.
Qed.

Lemma AcquireControlGuard_loop_seal (fuel : nat) (size len w : Z) :
  wrap64 (GetLsn_ w + len) > size ->
  AcquireControlGuard_loop (S fuel) size len w w = Done (None, true, w).
Proof.
  intros H. cbn [AcquireControlGuard_loop].
  destruct (Z.gtb_spec (wrap64 (GetLsn_ w + len)) size); [reflexivity|lia].
Qed.

Lemma AcquireControlGuard_loop_wait (fuel : nat) (size len w : Z) :
  wrap64 (GetLsn_ w + len) <= size ->
  wrap64 (GetWriterNum_ w + 1) > kMaximumWriterNum ->
  AcquireControlGuard_loop (S fuel) size len w w = Done (None, false, w).
Proof.
  intros H1 H2. cbn [AcquireControlGuard_loop].
  destruct (Z.gtb_spec (wrap64 (GetLsn_ w + len)) size); [lia|].
  destruct (Z.gtb_spec (wrap64 (GetWriterNum_ w + 1)) kMaximumWriterNum);
    [reflexivity|lia].
Qed.

Lemma AcquireControlGuard_loop_guard (fuel : nat) (size len w : Z) :
  wrap64 (GetLsn_ w + len) <= size ->
  wrap64 (GetWriterNum_ w + 1) <= kMaximumWriterNum ->
  BumpLsn_ (IncrWriterNum_ w) len <> w ->
  AcquireControlGuard_loop (S (S fuel)) size len w w
  = Done (Some MkControlGuard, false, BumpLsn_ (IncrWriterNum_ w) len).
Proof.
  intros H1 H2 Hne. cbn [AcquireControlGuard_loop].
  destruct (Z.gtb_spec (wrap64 (GetLsn_ w + len)) size); [lia|].
  destruct (Z.gtb_spec (wrap64 (GetWriterNum_ w + 1)) kMaximumWriterNum); [lia|].
  rewrite compare_exchange_same.
  destruct (Z.gtb_spec (wrap64 (GetLsn_ w + len)) size); [lia|].
  destruct (Z.gtb_spec (wrap64 (GetWriterNum_ w + 1)) kMaximumWriterNum); [lia|].
  rewrite compare_exchange_diff by exact Hne.
  reflexivity.
Qed.

(** *** What each operation does to a well-formed control word *)

Lemma AcquireControlGuard_run (fuel : nat) (seg : t) (length : Z) :
  (2 <= fuel)%nat ->
  is_u64 (control_bits_ seg) ->
  0 <= size_ seg < 2 ^ 48 ->
  0 <= length ->
  GetLsn_ (control_bits_ seg) + length < 2 ^ 64 ->
  AcquireControlGuard fuel seg length =
    if GetLsn_ (control_bits_ seg) + length >? size_ seg then
      Done (None, true, seg)
    else if GetWriterNum_ (control_bits_ seg) + 1 >? 2 ^ 15 - 1 then
      Done (None, false, seg)
    else
      Done (Some MkControlGuard, false,
            set_control_bits seg
              (BumpLsn_ (IncrWriterNum_ (control_bits_ seg)) length)).
Proof.
  intros Hfuel Hw Hsize Hlen Hsum.
  destruct fuel as [|[|fuel]]; [lia|lia|].
  destruct seg as [st sz sl w]; cbn [control_bits_ size_] in *.
  pose proof (GetLsn_range w) as Hl. pose proof (GetWriterNum_range w) as Hc.
  assert (Ewl : wrap64 (GetLsn_ w + length) = GetLsn_ w + length).
  { unfold wrap64. apply Z.mod_small. change two64 with (2 ^ 64). lia. }
  assert (Ewc : wrap64 (GetWriterNum_ w + 1) = GetWriterNum_ w + 1).
  { unfold wrap64. apply Z.mod_small. change two64 with (2 ^ 64).
    change (2 ^ 15) with 32768 in Hc. change (2 ^ 64) with 18446744073709551616.
    lia. }
  unfold AcquireControlGuard; cbn [control_bits_ size_].
  destruct (Z.gtb_spec (GetLsn_ w + length) sz) as [Hs|Hs].
  - rewrite AcquireControlGuard_loop_seal by (rewrite Ewl; lia).
    reflexivity.
  - destruct (Z.gtb_spec (GetWriterNum_ w + 1) (2 ^ 15 - 1)) as [Hm|Hm].
    + rewrite AcquireControlGuard_loop_wait
        by (rewrite ?Ewl, ?Ewc; unfold kMaximumWriterNum, kWriterNumMaskbit;
            change (2 ^ 15) with 32768 in Hm; lia).
      reflexivity.
    + rewrite AcquireControlGuard_loop_guard;
        [reflexivity
        | rewrite Ewl; lia
        | rewrite Ewc; unfold kMaximumWriterNum, kWriterNumMaskbit;
          change (2 ^ 15) with 32768 in Hm; lia
        | ].
      intros E.
      pose proof (Incr_fields w Hw ltac:(lia)) as (Hi1 & Hi2 & Hi3 & Hi4).
      pose proof (Bump_fields (IncrWriterNum_ w) length Hi4 Hlen
                    ltac:(rewrite Hi2; lia)) as (Hb1 & Hb2 & Hb3 & Hb4).
      rewrite E in Hb2. lia.
Qed.

Lemma OnWriterExit_run (fuel : nat) (seg : t) :
  (2 <= fuel)%nat ->
  is_u64 (control_bits_ seg) ->
  OnWriterExit fuel seg =
    Done {| state_ :=
              if negb (GetWriterNum_ (DecrWriterNum_ (control_bits_ seg)) =? 0)
                 && IsSealed_ (control_bits_ seg)
              then kIo else state_ seg;
            size_ := size_ seg;
            start_lsn_ := start_lsn_ seg;
            control_bits_ := DecrWriterNum_ (control_bits_ seg) |}.
Proof.
  intros Hfuel Hw. destruct fuel as [|[|fuel]]; [lia|lia|].
  unfold OnWriterExit. rewrite OnWriterExit_loop_run by exact Hw.
  destruct (negb (GetWriterNum_ (DecrWriterNum_ (control_bits_ seg)) =? 0)
            && IsSealed_ (control_bits_ seg)); reflexivity.
Qed.

Lemma TrySealLogSegment_run (fuel : nat) (seg : t) :
  (2 <= fuel)%nat ->
  state_ seg = kOpen ->
  TrySealLogSegment fuel seg =
    if IsSealed_ (control_bits_ seg) then Done (None, seg)
    else Done (Some (GetLsn_ (control_bits_ seg)),
               set_control_bits seg (MarkSealed_ (control_bits_ seg))).
Proof.
  intros Hfuel Hst. destruct fuel as [|[|fuel]]; [lia|lia|].
  unfold TrySealLogSegment. rewrite Hst. cbn [LogSegmentState_eqb].
  destruct (IsSealed_ (control_bits_ seg)) eqn:Hs.
  - rewrite TrySealLogSegment_loop_sealed by exact Hs.
    destruct seg; reflexivity.
  - rewrite TrySealLogSegment_loop_unsealed by exact Hs.
    pose proof (MarkSealed_fields (control_bits_ seg)) as (_ & -> & _).
    reflexivity.
Qed.

(** *** The claims about the control word *)

(** C9.  The accessors realise the packed layout
    [IsSealed:1 | WriterCount:15 | NextLsnOffset:48]: for every 64-bit word
    [w], [GetLsn_ w] is [w mod 2^48], [GetWriterNum_ w] is
    [(w >> 48) mod 2^15] and [IsSealed_ w] is bit 63 of [w].  When the
    field it touches does not overflow, [IncrWriterNum_] and
    [DecrWriterNum_] change the writer count by plus or minus one and
    nothing else, [BumpLsn_ w len] adds [len] to the offset and changes
    nothing else, and [MarkSealed_] sets bit 63 and no other bit. *)
Theorem C9_control_word_layout (w : Z) :
  is_u64 w ->
  (GetLsn_ w = w mod 2 ^ 48 /\
   GetWriterNum_ w = (Z.shiftr w 48) mod 2 ^ 15 /\
   IsSealed_ w = Z.testbit w 63) /\
  (GetWriterNum_ w + 1 <= 2 ^ 15 - 1 ->
   GetWriterNum_ (IncrWriterNum_ w) = GetWriterNum_ w + 1 /\
   GetLsn_ (IncrWriterNum_ w) = GetLsn_ w /\
   IsSealed_ (IncrWriterNum_ w) = IsSealed_ w) /\
  (0 <= GetWriterNum_ w - 1 ->
   GetWriterNum_ (DecrWriterNum_ w) = GetWriterNum_ w - 1 /\
   GetLsn_ (DecrWriterNum_ w) = GetLsn_ w /\
   IsSealed_ (DecrWriterNum_ w) = IsSealed_ w) /\
  (forall len, 0 <= len -> GetLsn_ w + len <= 2 ^ 48 - 1 ->
   GetLsn_ (BumpLsn_ w len) = GetLsn_ w + len /\
   GetWriterNum_ (BumpLsn_ w len) = GetWriterNum_ w /\
   IsSealed_ (BumpLsn_ w len) = IsSealed_ w) /\
  (forall n, 0 <= n ->
   Z.testbit (MarkSealed_ w) n = Z.testbit w n || (n =? 63)).
Proof.
  intros Hw. repeat apply conj.
  - apply GetLsn_mod.
  - rewrite Z.shiftr_div_pow2 by lia. apply GetWriterNum_div.
  - apply IsSealed_testbit.
  - intros H. pose proof (Incr_fields w Hw ltac:(lia)) as (? & ? & ? & _).
    auto.
  - intros H. pose proof (Decr_fields w Hw ltac:(lia)) as (? & ? & ? & _).
    auto.
  - intros len Hlen H.
    pose proof (Bump_fields w len Hw Hlen ltac:(lia)) as (? & ? & ? & _).
    auto.
  - intros n Hn. apply MarkSealed_bits. exact Hn.
Qed.

(** A sealed word with three writers and offset 100. *)
Lemma C9_control_word_layout_witness :
  is_u64 (2 ^ 63 + 3 * 2 ^ 48 + 100) /\
  GetWriterNum_ (IncrWriterNum_ (2 ^ 63 + 3 * 2 ^ 48 + 100)) = 4 /\
  GetWriterNum_ (DecrWriterNum_ (2 ^ 63 + 3 * 2 ^ 48 + 100)) = 2 /\
  GetLsn_ (BumpLsn_ (2 ^ 63 + 3 * 2 ^ 48 + 100) 28) = 128.
Proof.
  assert (Hw : is_u64 (2 ^ 63 + 3 * 2 ^ 48 + 100)).
  { unfold is_u64, two64. split; [discriminate | reflexivity]. }
  destruct (C9_control_word_layout _ Hw) as (_ & Hi & Hd & Hb & _).
  split; [exact Hw|].
  split; [|split].
  - destruct Hi as (E & _); [vm_compute; discriminate|].
    rewrite E. reflexivity.
  - destruct Hd as (E & _); [vm_compute; discriminate|].
    rewrite E. reflexivity.
  - destruct (Hb 28) as (E & _);
      [vm_compute; discriminate | vm_compute; discriminate|].
    rewrite E. reflexivity.
Defined.




(** C3 fails on the code: [is_last_writer] is the writer count converted
    to [bool], which is [true] when writers remain.  When the last writer
    of a sealed segment leaves (count 1 to 0), the state stays [kOpen];
    when a writer leaves a sealed segment that still has another writer
    (count 2 to 1), the state becomes [kIo]. *)
Theorem C3_OnWriterExit_io_condition_inverted :
  (let seg := {| state_ := kOpen; size_ := 1024; start_lsn_ := 0;
                 control_bits_ := 2 ^ 63 + 1 * 2 ^ 48 + 200 |} in
   exists seg',
     OnWriterExit 2 seg = Done seg' /\
     GetWriterNum_ (control_bits_ seg') = 0 /\
     IsSealed_ (control_bits_ seg') = true /\
     state_ seg' = kOpen) /\
  (let seg := {| state_ := kOpen; size_ := 1024; start_lsn_ := 0;
                 control_bits_ := 2 ^ 63 + 2 * 2 ^ 48 + 200 |} in
   exists seg',
     OnWriterExit 2 seg = Done seg' /\
     GetWriterNum_ (control_bits_ seg') = 1 /\
     IsSealed_ (control_bits_ seg') = true /\
     state_ seg' = kIo).
Proof.
  split; eexists; (split; [reflexivity|]); repeat split; reflexivity.
Qed.

(** C4 fails on the code: [AcquireControlGuard] does not look at the
    [IsSealed] bit.  On a segment of size 1024 that was opened and then
    sealed at offset 0, a request of 100 bytes is granted and moves the
    offset of the sealed control word to 100. *)
Theorem C4_offset_moves_after_seal :
  exists sealed after,
    run 2 (make 1024) [OpOpen 0; OpTrySeal] = Done sealed /\
    IsSealed_ (control_bits_ sealed) = true /\
    GetLsn_ (control_bits_ sealed) = 0 /\
    run 2 (make 1024) [OpOpen 0; OpTrySeal; OpAcquire 100] = Done after /\
    IsSealed_ (control_bits_ after) = true /\
    GetLsn_ (control_bits_ after) = 100.
Proof.
  eexists _, _. split; [reflexivity|]. split; [reflexivity|].
  split; [reflexivity|]. split; [reflexivity|]. split; reflexivity.
Qed.

End LogSegmentProofs.

(** ** The transaction context *)

Module TxnProofs.
Import TxnContextOCC.

Section Facts.

Context {Row World : Type} {C : Collaborators Row World}.

Local Open Scope txn_scope.

Lemma retabled_refl (c : t Row) : retabled c c.
Proof. destruct c; reflexivity. Qed.

Lemma retabled_trans (a b c : t Row) :
  retabled a b -> retabled b c -> retabled a c.
Proof.
  unfold retabled. intros H1 H2. rewrite H2. rewrite H1 at 1.
  destruct a; reflexivity.
Qed.

Lemma retabled_set_tables (c : t Row) (l : list string) :
  retabled c (set_tables c l).
Proof. destruct c; reflexivity. Qed.

Lemma retabled_fields (c c' : t Row) :
  retabled c c' ->
  txn_type_ c' = txn_type_ c /\ read_ts_ c' = read_ts_ c /\
  commit_ts_ c' = commit_ts_ c /\
  lock_manager_type_ c' = lock_manager_type_ c /\
  write_set_ c' = write_set_ c /\ read_set_ c' = read_set_ c /\
  lock_set_ c' = lock_set_ c.
Proof. intros ->. destruct c; cbn. repeat split. Qed.

Hypothesis Hopen : opens_succeed.

Lemma extends_refl (st : State Row World) : extends st st [].
Proof. split; [apply retabled_refl | symmetry; apply app_nil_r]. Qed.

Lemma extends_trans (a b c : State Row World) (e1 e2 : list (Event Row)) :
  extends a b e1 -> extends b c e2 -> extends a c (e1 ++ e2).
Proof.
  intros [R1 T1] [R2 T2]. split.
  - eapply retabled_trans; eassumption.
  - rewrite T2, T1, app_assoc. reflexivity.
Qed.

Lemma subtable_calls_app (a b : list (Event Row)) :
  subtable_calls (a ++ b) = subtable_calls a ++ subtable_calls b.
Proof. apply filter_app. Qed.

Lemma GetSubTable_run (k : string) (opts : Options) (st : State Row World) :
  exists st' evs,
    GetSubTable_ k opts st = Some (k, st') /\
    extends st st' evs /\ world st' = world st /\
    subtable_calls evs = [].
Proof.
  destruct st as [c w tr]. unfold GetSubTable_, bind, get_ctx. cbn.
  destruct (set_count k (tables_ c)).
  - exists (mkState c w tr), []. split; [reflexivity|].
    split; [apply extends_refl|]. split; reflexivity.
  - unfold ask. cbn. rewrite (Hopen w k opts). cbn.
    exists (mkState (set_tables c (tables_ c ++ [k])) w
                    (tr ++ [EvOpenSubTable k opts])), [EvOpenSubTable k opts].
    split; [reflexivity|].
    split; [|split; reflexivity].
    split; [apply retabled_set_tables | reflexivity].
Qed.

(** Runs the call to [GetSubTable_] at the head of the goal. *)
Ltac open_sub_table k opts st st1 e1 :=
  let H := fresh "Hget" in
  let X := fresh "Hext" in
  let W := fresh "Hworld" in
  let S := fresh "Hcalls" in
  destruct (GetSubTable_run k opts st) as (st1 & e1 & H & X & W & S);
  unfold bind at 1; rewrite H.

Lemma stamp_intents_run (entries : list (RowKey * option Row)) (ts : Z)
      (opts : Options) (st : State Row World) :
  exists st' evs,
    stamp_intents entries ts opts st = Some (tt, st') /\
    extends st st' evs /\
    subtable_calls evs = map (stamp_event ts opts) (map fst entries).
Proof.
  revert st. induction entries as [|[k v] rest IH]; intros st.
  - exists st, []. split; [reflexivity|]. split; [apply extends_refl|reflexivity].
  - cbn [stamp_intents].
    open_sub_table (fst k) opts st st1 e1.
    unfold bind at 1, call_, call. cbn.
    match goal with |- context [stamp_intents rest ts opts ?s] =>
      destruct (IH s) as (st' & e2 & Hrun & Hx & Hc) end.
    exists st', (e1 ++ [EvSetTs (fst k) (snd k) ts opts] ++ e2).
    split; [exact Hrun|]. split.
    + eapply extends_trans; [exact Hext|].
      destruct Hx as [R T]. cbn in R, T. split.
      * exact R.
      * rewrite T. rewrite <- app_assoc. reflexivity.
    + rewrite !subtable_calls_app, Hcalls, Hc. reflexivity.
Qed.


Lemma undo_intents_run (undo_list : list RowKey) (opts : Options)
      (st : State Row World) :
  exists st' evs,
    undo_intents undo_list opts st = Some (tt, st') /\
    extends st st' evs /\
    subtable_calls evs = map (stamp_event kAbortedTxnTs opts) undo_list.
Proof.
  revert st. induction undo_list as [|k rest IH]; intros st.
  - exists st, []. split; [reflexivity|]. split; [apply extends_refl|reflexivity].
  - cbn [undo_intents].
    open_sub_table (fst k) opts st st1 e1.
    unfold bind at 1, call_, call. cbn.
    match goal with |- context [undo_intents rest opts ?s] =>
      destruct (IH s) as (st' & e2 & Hrun & Hx & Hc) end.
    exists st', (e1 ++ [EvSetTs (fst k) (snd k) kAbortedTxnTs opts] ++ e2).
    split; [exact Hrun|]. split.
    + eapply extends_trans; [exact Hext|].
      destruct Hx as [R T]. cbn in R, T. split.
      * exact R.
      * rewrite T. rewrite <- app_assoc. reflexivity.
    + rewrite !subtable_calls_app, Hcalls, Hc. reflexivity.
Qed.

Lemma unlock_shared_run (locks : list string) (read_ts : Z)
      (st : State Row World) :
  exists st' evs,
    unlock_shared locks read_ts st = Some (tt, st') /\
    extends st st' evs /\ subtable_calls evs = [].
Proof.
  revert st. induction locks as [|l rest IH]; intros st.
  - exists st, []. split; [reflexivity|]. split; [apply extends_refl|reflexivity].
  - cbn [unlock_shared]. unfold bind at 1, call_, call. cbn.
    match goal with |- context [unlock_shared rest read_ts ?s] =>
      destruct (IH s) as (st' & e2 & Hrun & Hx & Hc) end.
    exists st', ([EvUnlock SharedLockTable l read_ts] ++ e2).
    split; [exact Hrun|]. split.
    + destruct Hx as [R T]. cbn in R, T. split.
      * exact R.
      * rewrite T. rewrite <- app_assoc. reflexivity.
    + rewrite subtable_calls_app, Hc. reflexivity.
Qed.

Lemma unlock_sub_tables_run (locks : list string) (read_ts : Z)
      (opts : Options) (st : State Row World) :
  exists st' evs,
    unlock_sub_tables locks read_ts opts st = Some (tt, st') /\
    extends st st' evs /\ subtable_calls evs = [].
Proof.
  revert st. induction locks as [|l rest IH]; intros st.
  - exists st, []. split; [reflexivity|]. split; [apply extends_refl|reflexivity].
  - cbn [unlock_sub_tables].
    open_sub_table (ExtraceSubTableKey l) opts st st1 e1.
    unfold bind at 1, call_, call. cbn.
    match goal with |- context [unlock_sub_tables rest read_ts opts ?s] =>
      destruct (IH s) as (st' & e2 & Hrun & Hx & Hc) end.
    exists st',
      (e1 ++ [EvUnlock (SubTableLockTable (ExtraceSubTableKey l)) l read_ts] ++ e2).
    split; [exact Hrun|]. split.
    + eapply extends_trans; [exact Hext|].
      destruct Hx as [R T]. cbn in R, T. split.
      * exact R.
      * rewrite T. rewrite <- app_assoc. reflexivity.
    + rewrite !subtable_calls_app, Hcalls, Hc. reflexivity.
Qed.

Lemma ReleaseLock_run (opts : Options) (st : State Row World) :
  exists st' evs,
    ReleaseLock_ opts st = Some (tt, st') /\
    extends st st' evs /\ subtable_calls evs = [].
Proof.
  unfold ReleaseLock_, bind, get_ctx.
  destruct (lock_manager_type_ (ctx st)).
  - apply unlock_shared_run.
  - apply unlock_sub_tables_run.
  - exists st, []. split; [reflexivity|]. split; [apply extends_refl|reflexivity].
Qed.

(** One iteration of the loop of [WriteIntents_]. *)
Lemma WriteIntents_loop_step (opts : Options) (k : RowKey) (v : option Row)
      (rest : list (RowKey * option Row)) (undo_list : list RowKey)
      (st : State Row World) :
  exists st1 e1,
    extends st st1 e1 /\ subtable_calls e1 = [] /\
    WriteIntents_loop ((k, v) :: rest) undo_list opts st =
      let rts := read_ts_ (ctx st) in
      let r := intent_write rts opts (world st) (k, v) in
      let st2 := mkState (ctx st1) (snd r)
                         (trace st1 ++ [write_event rts opts (k, v)]) in
      if negb (ok (fst r)) then
        (undo_intents undo_list opts ;;; ret (fst r)) st2
      else WriteIntents_loop rest (undo_list ++ [k]) opts st2.
Proof.
  cbn [WriteIntents_loop].
  destruct (GetSubTable_run (fst k) opts st) as (st1 & e1 & Hget & Hext & Hw & Hc).
  exists st1, e1. split; [exact Hext|]. split; [exact Hc|].
  unfold bind at 1. rewrite Hget.
  unfold bind at 1, get_ctx.
  destruct Hext as [R T]. pose proof (retabled_fields _ _ R) as (_ & Hrts & _).
  rewrite Hrts.
  unfold intent_write, write_event. cbn [fst snd].
  destruct v as [row|]; unfold bind at 1, call; rewrite Hw;
    match goal with |- context [let (a, w) := ?X in _] => destruct X as [s w2] end;
    cbn [fst snd]; destruct (negb (ok s)); reflexivity.
Qed.

(** The intents of a prefix of the write set are written as long as the
    writes succeed. *)
Lemma WriteIntents_loop_ok (opts : Options)
      (entries : list (RowKey * option Row)) (undo_list : list RowKey)
      (st : State Row World) :
  writes_succeed (read_ts_ (ctx st)) opts (world st) entries = true ->
  exists st' evs,
    WriteIntents_loop entries undo_list opts st = Some (Ok, st') /\
    extends st st' evs /\
    world st' = after_writes (read_ts_ (ctx st)) opts (world st) entries /\
    subtable_calls evs = map (write_event (read_ts_ (ctx st)) opts) entries.
Proof.
  revert undo_list st.
  induction entries as [|[k v] rest IH]; intros undo_list st Hs.
  - exists st, []. split; [reflexivity|]. split; [apply extends_refl|].
    split; reflexivity.
  - destruct (WriteIntents_loop_step opts k v rest undo_list st)
      as (st1 & e1 & Hext & Hc1 & ->).
    cbn [writes_succeed] in Hs. apply andb_prop in Hs as [Hs1 Hs2].
    cbv zeta. rewrite Hs1. cbn [negb].
    destruct Hext as [R T]. pose proof (retabled_fields _ _ R) as (_ & Hrts & _).
    match goal with |- context [WriteIntents_loop rest ?u opts ?s] =>
      destruct (IH u s) as (st' & e2 & Hrun & Hx & Hw & Hc) end.
    { cbn [ctx world]. rewrite Hrts. exact Hs2. }
    cbn [ctx world] in Hw, Hc. rewrite Hrts in Hw, Hc.
    exists st', (e1 ++ [write_event (read_ts_ (ctx st)) opts (k, v)] ++ e2).
    split; [exact Hrun|]. split; [|split].
    + destruct Hx as [R2 T2]. cbn in R2, T2. split.
      * eapply retabled_trans; eassumption.
      * rewrite T2, T, <- !app_assoc. reflexivity.
    + rewrite Hw. reflexivity.
    + rewrite !subtable_calls_app, Hc1, Hc. cbn.
      destruct v; reflexivity.
Qed.

(** The first write that fails ends the loop: the intents written before
    it are stamped in the order in which they were written. *)
Lemma WriteIntents_loop_fail (opts : Options)
      (pre : list (RowKey * option Row)) (e : RowKey * option Row)
      (post : list (RowKey * option Row)) (undo_list : list RowKey)
      (st : State Row World) :
  let rts := read_ts_ (ctx st) in
  writes_succeed rts opts (world st) pre = true ->
  ok (fst (intent_write rts opts (after_writes rts opts (world st) pre) e)) = false ->
  exists st' evs,
    WriteIntents_loop (pre ++ e :: post) undo_list opts st
    = Some (fst (intent_write rts opts (after_writes rts opts (world st) pre) e), st') /\
    extends st st' evs /\
    subtable_calls evs =
      map (write_event rts opts) (pre ++ [e])
      ++ map (stamp_event kAbortedTxnTs opts) (undo_list ++ map fst pre).
Proof.
  revert undo_list st.
  induction pre as [|[k v] rest IH]; intros undo_list st rts Hs Hf.
  - destruct e as [k v]. cbn [app].
    destruct (WriteIntents_loop_step opts k v post undo_list st)
      as (st1 & e1 & Hext & Hc1 & ->).
    cbv zeta. cbn [after_writes fold_left] in Hf. fold rts. rewrite Hf. cbn [negb].
    match goal with |- context [undo_intents undo_list opts] =>
      match goal with |- context [bind _ _ ?s] =>
        destruct (undo_intents_run undo_list opts s) as (st' & e2 & Hrun & Hx & Hc)
      end end.
    unfold bind at 1. rewrite Hrun. unfold ret.
    exists st', (e1 ++ [write_event rts opts (k, v)] ++ e2).
    split; [reflexivity|]. split.
    + destruct Hext as [R T]. destruct Hx as [R2 T2]. cbn in R2, T2. split.
      * eapply retabled_trans; eassumption.
      * rewrite T2, T, <- !app_assoc. reflexivity.
    + rewrite !subtable_calls_app, Hc1, Hc. cbn. rewrite app_nil_r.
      destruct v; reflexivity.
  - cbn [app].
    destruct (WriteIntents_loop_step opts k v (rest ++ e :: post) undo_list st)
      as (st1 & e1 & Hext & Hc1 & ->).
    cbn [writes_succeed] in Hs. apply andb_prop in Hs as [Hs1 Hs2].
    cbv zeta. fold rts. rewrite Hs1. cbn [negb].
    destruct Hext as [R T]. pose proof (retabled_fields _ _ R) as (_ & Hrts & _).
    match goal with |- context [WriteIntents_loop _ ?u opts ?s] =>
      destruct (IH u s) as (st' & e2 & Hrun & Hx & Hc) end.
    { cbn [ctx world]. rewrite Hrts. exact Hs2. }
    { cbn [ctx world]. rewrite Hrts. exact Hf. }
    cbn [ctx world] in Hrun, Hc. rewrite Hrts in Hrun, Hc.
    exists st', (e1 ++ [write_event rts opts (k, v)] ++ e2).
    split; [exact Hrun|]. split.
    + destruct Hx as [R2 T2]. cbn in R2, T2. split.
      * eapply retabled_trans; eassumption.
      * rewrite T2, T, <- !app_assoc. reflexivity.
    + rewrite !subtable_calls_app, Hc1, Hc. cbn. rewrite <- !app_assoc.
      destruct v; reflexivity.
Qed.

(** Whatever its outcome, [WriteIntents_] leaves the sets of the context
    as they were. *)
Lemma WriteIntents_loop_frame (opts : Options)
      (entries : list (RowKey * option Row)) (undo_list : list RowKey)
      (st : State Row World) :
  exists s st' evs,
    WriteIntents_loop entries undo_list opts st = Some (s, st') /\
    extends st st' evs.
Proof.
  revert undo_list st.
  induction entries as [|[k v] rest IH]; intros undo_list st.
  - exists Ok, st, []. split; [reflexivity | apply extends_refl].
  - destruct (WriteIntents_loop_step opts k v rest undo_list st)
      as (st1 & e1 & Hext & Hc1 & ->).
    cbv zeta.
    set (r := intent_write (read_ts_ (ctx st)) opts (world st) (k, v)).
    set (ev := write_event (read_ts_ (ctx st)) opts (k, v)).
    assert (Hst2 : extends st (mkState (ctx st1) (snd r) (trace st1 ++ [ev]))
                           (e1 ++ [ev])).
    { destruct Hext as [R T]. split; [exact R|]. cbn. rewrite T, app_assoc.
      reflexivity. }
    destruct (negb (ok (fst r))).
    + match goal with |- context [bind _ _ ?s] =>
        destruct (undo_intents_run undo_list opts s) as (st' & e2 & Hrun & Hx & _)
      end.
      unfold bind at 1. rewrite Hrun. unfold ret.
      exists (fst r), st', ((e1 ++ [ev]) ++ e2).
      split; [reflexivity|]. eapply extends_trans; eassumption.
    + match goal with |- context [WriteIntents_loop rest ?u opts ?s] =>
        destruct (IH u s) as (s' & st' & e2 & Hrun & Hx) end.
      exists s', st', ((e1 ++ [ev]) ++ e2).
      split; [exact Hrun|]. eapply extends_trans; eassumption.
Qed.

(** Facts about the write set as a map. *)

Lemma RowKey_eqb_refl (k : RowKey) : RowKey_eqb k k = true.
Proof. unfold RowKey_eqb. rewrite !String.eqb_refl. reflexivity. Qed.

Lemma RowKey_eqb_eq (a b : RowKey) : RowKey_eqb a b = true -> a = b.
Proof.
  unfold RowKey_eqb. intros H. apply andb_prop in H as [H1 H2].
  apply String.eqb_eq in H1, H2. destruct a, b; cbn in *. congruence.
Qed.

Lemma map_find_assign_same {V : Type} (k : RowKey) (v : V)
      (m : list (RowKey * V)) :
  map_find k (map_assign k v m) = Some v.
Proof.
  induction m as [|[k' v'] rest IH]; cbn.
  - rewrite RowKey_eqb_refl. reflexivity.
  - destruct (RowKey_eqb k k') eqn:E; cbn; rewrite E; [reflexivity | exact IH].
Qed.

Lemma map_find_assign_other {V : Type} (k k2 : RowKey) (v : V)
      (m : list (RowKey * V)) :
  RowKey_eqb k k2 = false ->
  map_find k (map_assign k2 v m) = map_find k m.
Proof.
  intros Hne. induction m as [|[k' v'] rest IH]; cbn.
  - rewrite Hne. reflexivity.
  - destruct (RowKey_eqb k2 k') eqn:E; cbn.
    + apply RowKey_eqb_eq in E. subst k'. rewrite Hne. reflexivity.
    + rewrite IH. reflexivity.
Qed.

(** An existing key keeps its place and no key is added twice. *)
Lemma map_assign_keys {V : Type} (k : RowKey) (v : V) (m : list (RowKey * V)) :
  map fst (map_assign k v m) =
  if existsb (RowKey_eqb k) (map fst m) then map fst m else map fst m ++ [k].
Proof.
  induction m as [|[k' v'] rest IH]; cbn; [reflexivity|].
  destruct (RowKey_eqb k k') eqn:E; cbn; [reflexivity|].
  rewrite IH. destruct (existsb (RowKey_eqb k) (map fst rest)); reflexivity.
Qed.

Lemma extends_kept (st st' : State Row World) (evs : list (Event Row)) :
  extends st st' evs -> subtable_calls evs = [] -> kept st st'.
Proof.
  intros [R T] Hc. pose proof (retabled_fields _ _ R) as (? & _ & _ & _ & ? & ? & _).
  repeat split; try assumption. exists evs. split; assumption.
Qed.

Lemma AcquireLock_run (k sk : string) (opts : Options) (st : State Row World) :
  exists s st', AcquireLock_ k sk opts st = Some (s, st') /\ kept st st'.
Proof.
  assert (Hsame : kept st st).
  { apply (extends_kept st st []); [apply extends_refl | reflexivity]. }
  unfold AcquireLock_. unfold bind at 1, get_ctx.
  destruct (lock_manager_type_ (ctx st)) eqn:Hl.
  - destruct (negb _).
    + unfold bind at 1, call.
      destruct (LockTable_Lock _ _ _ _) as [s w2].
      unfold bind, modify_ctx, ret. cbn [ctx world trace].
      eexists _, _. split; [reflexivity|].
      destruct st as [c w tr]; destruct c; cbn.
      repeat split. eexists. split; reflexivity.
    + exists Ok, st. split; [reflexivity | exact Hsame].
  - destruct (negb _).
    + open_sub_table k opts st st1 e1.
      unfold bind at 1, call.
      destruct (LockTable_Lock _ _ _ _) as [s w2].
      unfold bind, modify_ctx, ret. cbn [ctx world trace].
      eexists _, _. split; [reflexivity|].
      destruct Hext as [R T].
      pose proof (retabled_fields _ _ R) as (? & _ & _ & _ & ? & ? & _).
      destruct st1 as [c1 w1 tr1]; destruct c1; cbn in *.
      repeat split; try assumption.
      exists (e1 ++ [EvLock (SubTableLockTable k) ((k ++ "#") ++ sk)%string
                            (read_ts_ (ctx st))]).
      split.
      * rewrite T, app_assoc. reflexivity.
      * rewrite subtable_calls_app, Hcalls. reflexivity.
    + exists Ok, st. split; [reflexivity | exact Hsame].
  - exists Ok, st. split; [reflexivity | exact Hsame].
Qed.

Lemma SetRow_run (k : string) (row : Row) (opts : Options)
      (st : State Row World) :
  exists s st',
    SetRow k row opts st = Some (s, st') /\
    wrote (k, GetSortKeys row) (Some row) s st st'.
Proof.
  unfold SetRow.
  destruct (AcquireLock_run k (GetSortKeys row) opts st)
    as (s & st1 & Hacq & Ht & _ & Hw & _).
  unfold bind at 1. rewrite Hacq.
  destruct (ok s) eqn:Hok; cbn [negb].
  - unfold bind, modify_ctx, ret. eexists Ok, _. split; [reflexivity|].
    split; cbn; [|rewrite Hw]; destruct (ctx st1); cbn in *; congruence.
  - exists s, st1. split; [reflexivity|]. split; [exact Ht|].
    rewrite Hok. exact Hw.
Qed.

Lemma DeleteRow_run (k sk : string) (opts : Options) (st : State Row World) :
  exists s st',
    DeleteRow k sk opts st = Some (s, st') /\ wrote (k, sk) None s st st'.
Proof.
  unfold DeleteRow.
  destruct (AcquireLock_run k sk opts st) as (s & st1 & Hacq & Ht & _ & Hw & _).
  unfold bind at 1. rewrite Hacq.
  destruct (ok s) eqn:Hok; cbn [negb].
  - unfold bind, modify_ctx, ret. eexists Ok, _. split; [reflexivity|].
    split; cbn; [|rewrite Hw]; destruct (ctx st1); cbn in *; congruence.
  - exists s, st1. split; [reflexivity|]. split; [exact Ht|].
    rewrite Hok. exact Hw.
Qed.

(** A read of a key that the write set holds. *)
Lemma GetRow_buffered (k sk : string) (opts : Options) (view : list Row)
      (v : option Row) (st : State Row World) :
  txn_type_ (ctx st) = ReadWriteTxn ->
  map_find (k, sk) (write_set_ (ctx st)) = Some v ->
  exists st',
    GetRow k sk opts view st
    = Some (match v with
            | Some row => (Ok, (view ++ [row])%list)
            | None => (NotFound, view)
            end, st') /\
    kept st st' /\ world st' = world st.
Proof.
  intros Hrw Hfind. unfold GetRow.
  open_sub_table k opts st st1 e1.
  pose proof (extends_kept _ _ _ Hext Hcalls) as Hk.
  destruct Hk as (Ht & Hr & Hw & Hev).
  unfold bind at 1, get_ctx. rewrite Ht, Hrw, Hw, Hfind.
  exists st1. split; [destruct v; reflexivity|].
  split; [|exact Hworld]. repeat split; assumption.
Qed.

(** A read never touches the write set. *)
Lemma GetRow_write_set (k sk : string) (opts : Options) (view : list Row)
      (st st' : State Row World) (r : Status * list Row) :
  GetRow k sk opts view st = Some (r, st') ->
  txn_type_ (ctx st') = txn_type_ (ctx st) /\
  write_set_ (ctx st') = write_set_ (ctx st).
Proof.
  unfold GetRow.
  open_sub_table k opts st st1 e1.
  pose proof (extends_kept _ _ _ Hext Hcalls) as (Ht & _ & Hw & _).
  unfold bind at 1, get_ctx.
  destruct (txn_type_ (ctx st1)) eqn:Et.
  - unfold SubTable_GetRow_into, bind, ask, ret. intros H.
    injection H as _ <-. cbn. split; congruence.
  - destruct (map_find (k, sk) (write_set_ (ctx st1))) as [[row|]|].
    + unfold ret. intros H. injection H as _ <-. split; congruence.
    + unfold ret. intros H. injection H as _ <-. split; congruence.
    + unfold SubTable_GetRow_into, bind at 1, bind at 1, ask, ret.
      cbn [fst snd].
      destruct (SubTable_GetRow (world st1) k sk (read_ts_ (ctx st1)) opts)
        as [s rows]. cbn [fst snd].
      destruct (IsNotFound s).
      * unfold bind, modify_ctx, ret. intros H. injection H as _ <-.
        cbn. destruct (ctx st1); cbn in *. split; congruence.
      * unfold bind at 1, at0.
        destruct (view ++ rows)%list as [|row rest]; [discriminate|].
        unfold ret, bind, modify_ctx. intros H. injection H as _ <-.
        cbn. destruct (ctx st1); cbn in *. split; congruence.
Qed.

Lemma exec_write_set (opts : Options) (op : TxnOp) (key : RowKey)
      (st st' : State Row World) (s : Status) :
  exec opts op st = Some (s, st') ->
  writes_to key op = false ->
  txn_type_ (ctx st') = txn_type_ (ctx st) /\
  map_find key (write_set_ (ctx st')) = map_find key (write_set_ (ctx st)).
Proof.
  intros Hexec Hno. destruct op as [k row|k sk|k sk]; cbn [exec] in Hexec.
  - destruct (SetRow_run k row opts st) as (s' & st'' & Hrun & Ht & Hw).
    rewrite Hrun in Hexec. injection Hexec as <- <-.
    split; [exact Ht|]. rewrite Hw.
    destruct (ok s'); [|reflexivity].
    apply map_find_assign_other. exact Hno.
  - destruct (DeleteRow_run k sk opts st) as (s' & st'' & Hrun & Ht & Hw).
    rewrite Hrun in Hexec. injection Hexec as <- <-.
    split; [exact Ht|]. rewrite Hw.
    destruct (ok s'); [|reflexivity].
    apply map_find_assign_other. exact Hno.
  - unfold bind in Hexec.
    destruct (GetRow k sk opts [] st) as [[r st'']|] eqn:E; [|discriminate].
    injection Hexec as _ <-.
    destruct (GetRow_write_set _ _ _ _ _ _ _ E) as [Ht Hw].
    split; [exact Ht | rewrite Hw; reflexivity].
Qed.

Lemma run_ops_write_set (opts : Options) (ops : list TxnOp) (key : RowKey)
      (st st' : State Row World) :
  run_ops opts ops st = Some (tt, st') ->
  forallb (fun op => negb (writes_to key op)) ops = true ->
  txn_type_ (ctx st') = txn_type_ (ctx st) /\
  map_find key (write_set_ (ctx st')) = map_find key (write_set_ (ctx st)).
Proof.
  revert st. induction ops as [|op rest IH]; intros st Hrun Hno.
  - injection Hrun as <-. split; reflexivity.
  - cbn [run_ops] in Hrun. unfold bind at 1 in Hrun.
    destruct (exec opts op st) as [[s st1]|] eqn:E; [|discriminate].
    cbn [forallb] in Hno. apply andb_prop in Hno as [Hop Hrest].
    apply negb_true_iff in Hop.
    destruct (exec_write_set _ _ _ _ _ _ E Hop) as [Ht1 Hw1].
    destruct (IH st1 Hrun Hrest) as [Ht2 Hw2].
    split; congruence.
Qed.

Hypothesis Hrows : reads_return_rows.

Lemma ValidateRead_loop_run (opts tmp_opt : Options) (w : World) (cts : Z)
      (entries : list (RowKey * option Z)) (st : State Row World) :
  world st = w -> commit_ts_ (ctx st) = cts ->
  let all_pass := forallb (entry_passes w cts tmp_opt) entries in
  exists st' evs n,
    ValidateRead_loop entries opts tmp_opt st = Some (all_pass, st') /\
    extends st st' evs /\ world st' = w /\
    subtable_calls evs =
      firstn n (map (read_event cts tmp_opt) (map fst entries)) /\
    (all_pass = true -> n = List.length entries).
Proof.
  revert st. induction entries as [|[k v] rest IH]; intros st Hw0 Hcts0 all_pass.
  - exists st, [], 0%nat. split; [reflexivity|]. split; [apply extends_refl|].
    repeat split; try reflexivity. exact Hw0.
  - cbn [ValidateRead_loop].
    open_sub_table (fst k) opts st st1 e1.
    destruct Hext as [R T].
    pose proof (retabled_fields _ _ R) as (_ & _ & Hcts & _).
    unfold bind at 1, get_ctx.
    unfold bind at 1, SubTable_GetRow_into, bind at 1, ask, ret.
    cbn [app fst snd]. rewrite Hcts, Hworld, Hcts0, Hw0.
    set (ev := EvGetRow (fst k) (snd k) cts tmp_opt).
    set (st2 := mkState (ctx st1) w (trace st1 ++ [ev])).
    assert (Hst2 : extends st st2 (e1 ++ [ev])).
    { split; [exact R|]. cbn. rewrite T, app_assoc. reflexivity. }
    destruct (IH st2) as (st' & e2 & n & Hrun & Hx & Hw' & Hc & Hn).
    { reflexivity. }
    { cbn. rewrite Hcts. exact Hcts0. }
    subst all_pass. cbn [forallb map List.length fst].
    pose proof (Hrows w (fst k) (snd k) cts tmp_opt) as Hne.
    assert (Hep : entry_passes w cts tmp_opt (k, v) =
                  let (s, view) := SubTable_GetRow w (fst k) (snd k) cts tmp_opt in
                  match v with
                  | Some ts => ok s && match view with
                                       | row :: _ => GetTs row =? ts
                                       | [] => false
                                       end
                  | None => IsNotFound s
                  end) by reflexivity.
    rewrite Hep. clear Hep.
    destruct (SubTable_GetRow w (fst k) (snd k) cts tmp_opt)
      as [s view] eqn:E. cbn [fst snd] in Hne |- *.
    assert (Hstop : forall b, b = false ->
      exists st' evs n,
        Some (false, st2) = Some (b && forallb (entry_passes w cts tmp_opt) rest, st') /\
        extends st st' evs /\ world st' = w /\
        subtable_calls evs =
          firstn n (read_event cts tmp_opt k
                    :: map (read_event cts tmp_opt) (map fst rest)) /\
        (b && forallb (entry_passes w cts tmp_opt) rest = true ->
         n = S (List.length rest))).
    { intros b ->. exists st2, (e1 ++ [ev]), 1%nat.
      split; [reflexivity|]. split; [exact Hst2|]. split; [reflexivity|].
      split; [|discriminate].
      rewrite subtable_calls_app, Hcalls. reflexivity. }
    assert (Hgo : forall b, b = true ->
      exists st'0 evs n0,
        ValidateRead_loop rest opts tmp_opt st2
        = Some (b && forallb (entry_passes w cts tmp_opt) rest, st'0) /\
        extends st st'0 evs /\ world st'0 = w /\
        subtable_calls evs =
          firstn n0 (read_event cts tmp_opt k
                     :: map (read_event cts tmp_opt) (map fst rest)) /\
        (b && forallb (entry_passes w cts tmp_opt) rest = true ->
         n0 = S (List.length rest))).
    { intros b ->. exists st', ((e1 ++ [ev]) ++ e2), (S n).
      split; [exact Hrun|]. split; [eapply extends_trans; eassumption|].
      split; [exact Hw'|]. split.
      - rewrite !subtable_calls_app, Hcalls, Hc. reflexivity.
      - cbn [andb]. intros H. f_equal. apply Hn. exact H. }
    destruct v as [ts|].
    + destruct (ok s) eqn:Hok; cbn [negb andb].
      * destruct view as [|row view']; [exfalso; apply Hne; reflexivity|].
        unfold bind at 1, at0, ret.
        destruct (GetTs row =? ts) eqn:Hts; cbn [negb].
        -- apply (Hgo true). reflexivity.
        -- apply (Hstop false). reflexivity.
      * apply (Hstop false). reflexivity.
    + destruct (IsNotFound s) eqn:Hnf; cbn [negb].
      * apply (Hgo true). reflexivity.
      * apply (Hstop false). reflexivity.
Qed.

End Facts.





(** *** The statements on the demonstration instance *)

#[local] Existing Instance Demo.collaborators.




(** C10 fails on the code: [PosixLogStore::AppendLogRecord] returns
    [Status::Ok()] without writing to [result], so the container that
    [WriteLogHelper_] indexes is empty for every non-null log store and
    every record batch, and [result[0]] lies outside of it in [Begin_],
    [Commit_] and [Abort_] alike. *)
Theorem C10_append_leaves_result_empty
        {Row : Type} (Serialize : OccLogRecord -> string)
        (store : PosixLogStore.t) (c : t Row) :
  (forall log_records,
     snd (PosixLogStore.AppendLogRecord store log_records []) = []) /\
  (forall lsn func, WriteLogHelper_ Serialize (Some store) lsn func = None) /\
  Begin_ Serialize c (Some store) = None /\
  Commit_ Serialize c (Some store) = None /\
  Abort_ Serialize c (Some store) = None.
Proof.
  repeat split.
Qed.

End TxnProofs.

(** ** The ring of segments *)

Module PosixLogStoreProofs.

Import LogSegment PosixLogStore.

(** C5 fails on the code.  [TrySealLogSegment] sets the [IsSealed] bit of
    an unsealed open segment and returns nothing for a sealed one, but the
    value it returns is the bare offset [GetLsn_(new_control_bits)]:
    [start_lsn_] is not added.  A segment opened at LSN 100 and sealed at
    offset 50 reports 50; and in a ring where segment 0 is sealed at offset
    100 and segment 1 (opened at 100) at offset 50, [SealAndOpen] opens
    segment 2 at LSN 50 instead of 150. *)
Theorem C5_sealed_lsn_is_the_bare_offset :
  (let seg := {| state_ := kOpen; size_ := 1024; start_lsn_ := 100;
                 control_bits_ := 50 |} in
   exists seg',
     TrySealLogSegment 2 seg = Done (Some 50, seg') /\
     IsSealed_ (control_bits_ seg') = true /\
     TrySealLogSegment 2 seg' = Done (None, seg')) /\
  (exists ring0 ring,
     OpenRing 4 1024 = Done ring0 /\
     run 2 ring0 [OpAcquireOn 0 100; OpSealAndOpen 0;
                  OpAcquireOn 1 50; OpSealAndOpen 1] = Done ring /\
     start_lsns ring = [0; 100; 50; 0] /\
     map (fun seg => GetLsn_ (control_bits_ seg)) (segments_ ring)
     = [100; 50; 0; 0]).
Proof.
  split.
  - eexists. split; [reflexivity|]. split; reflexivity.
  - eexists _, _. split; [reflexivity|]. split; [reflexivity|].
    split; reflexivity.
Qed.

End PosixLogStoreProofs.

(** ** The versioned page *)

Module VersionedPageProofs.

Import TxnContextOCC VersionedPage.

Section Facts.

Context {Row : Type} {L : TsLayout}.
Variable sort_key : Row -> string.

(** A version stamped [kAbortedTxnTs] decides no read. *)
Lemma dead_decides_nothing (read_ts : Z) (opts : Options) (ts : Z) :
  (ts =? page_kAbortedTxnTs) = true -> decides read_ts opts ts = false.
Proof.
  intros H. unfold decides. rewrite H. cbn [negb].
  rewrite andb_false_r. reflexivity.
Qed.

(** Dropping the dead versions is a compaction that keeps every read. *)
Lemma drop_dead_keeps_reads :
  compaction_keeps_reads sort_key drop_dead.
Proof.
  intros page sk read_ts opts.
  induction page as [|entry older IH]; [reflexivity|].
  unfold drop_dead in *. cbn [filter].
  destruct entry as [row ts|row ts|k ts|snapshot]; cbn [is_dead negb].
  - destruct (ts =? page_kAbortedTxnTs) eqn:E; cbn [negb GetRow].
    + rewrite (dead_decides_nothing read_ts opts ts E), andb_false_r. exact IH.
    + rewrite IH. reflexivity.
  - destruct (ts =? page_kAbortedTxnTs) eqn:E; cbn [negb GetRow].
    + rewrite (dead_decides_nothing read_ts opts ts E), andb_false_r. exact IH.
    + rewrite IH. reflexivity.
  - destruct (ts =? page_kAbortedTxnTs) eqn:E; cbn [negb GetRow].
    + rewrite (dead_decides_nothing read_ts opts ts E), andb_false_r. exact IH.
    + rewrite IH. reflexivity.
  - cbn [GetRow]. rewrite IH. reflexivity.
Qed.

Variable DeltaChainLength : nat.
Variable compact : @Page Row -> @Page Row.
Hypothesis Hcompact : compaction_keeps_reads sort_key compact.

(** Reading after an installation is reading the chain with the new delta
    at its head, whether or not the installation compacted the chain. *)
Lemma GetRow_install (page : @Page Row) (entry : @DeltaEntry Row) (wopts : Options)
      (sk : string) (read_ts : Z) (opts : Options) :
  GetRow sort_key (install DeltaChainLength compact page entry wopts)
         sk read_ts opts
  = GetRow sort_key (entry :: page) sk read_ts opts.
Proof.
  unfold install.
  destruct (negb (disable_compaction wopts)
            && (DeltaChainLength <? TEST_GetDeltaLength (entry :: page))%nat).
  - apply Hcompact.
  - reflexivity.
Qed.

End Facts.


#[local] Existing Instance Demo.layout.


End VersionedPageProofs.
